(** * Extensions Manager popup: a shallow embedding of [src/scripts/popup.js]

    The popup lists the installed browser extensions, toggles them one by
    one, and offers a "one key" bulk disable / restore.  The class
    [ExtensionManager] of the source is embedded as functions over an
    explicit [State]: the fields of the instance together with the part of
    the browser it reads and writes (local storage, the rendered nodes, the
    focused element).  Calls to the asynchronous platform API are returned as
    data ([Call]), their callbacks are defunctionalised. *)

From stdpp Require Import gmap strings list sorting.
From Stdlib Require Import ZArith.

Local Open Scope Z_scope.
Set Default Proof Using "Type".

(** ** Data owned by the platform *)

(** [chrome.management.IconInfo] *)
Module IconInfo.
Record t : Type := mk { size : Z; url : string }.
End IconInfo.

(** [chrome.management.ExtensionInfo], the fields the popup reads.
    [shortName] and [icons] may be [undefined]. *)
Module ExtensionInfo.
Record t : Type := mk {
  id : string;
  name : string;
  shortName : option string;
  enabled : bool;
  type : string;
  icons : option (list IconInfo.t)
}.
End ExtensionInfo.

(** ** JavaScript strings, arrays and sets *)

(** The character [,] (code 44). *)
Definition comma : Ascii.ascii :=
  Ascii.Ascii false false true true false true false false.

(** [s.split(sep)] for a one-character separator: the pieces between the
    occurrences of [sep]; the empty string splits into one empty piece. *)
Fixpoint String_split (sep : Ascii.ascii) (s : string) : list string :=
  match s with
  | EmptyString => [EmptyString]
  | String c rest =>
      if Ascii.eqb c sep then EmptyString :: String_split sep rest
      else match String_split sep rest with
           | piece :: pieces => String c piece :: pieces
           | [] => [String c EmptyString]
           end
  end.

(** [array.join(sep)] *)
Fixpoint Array_join (sep : Ascii.ascii) (l : list string) : string :=
  match l with
  | [] => EmptyString
  | [x] => x
  | x :: rest => x +:+ String sep (Array_join sep rest)
  end.

(** A [Set<string>] is kept in insertion order, which is the order
    [Array.from] and [forEach] see. *)
Definition Set_has (x : string) (s : list string) : bool := bool_decide (x ∈ s).

Definition Set_add (x : string) (s : list string) : list string :=
  if Set_has x s then s else s ++ [x].

(** Truthiness of a value that is [null] or a string. *)
Definition truthy (data : option string) : bool :=
  match data with
  | Some s => negb (String.eqb s "")
  | None => false
  end.

(** [a || b] where [a] is [undefined] or a string. *)
Definition or_else (a : option string) (b : string) : string :=
  match a with
  | Some s => if String.eqb s "" then b else s
  | None => b
  end.

(** The remainder operator [%] on integers truncates towards zero. *)
Definition js_rem (a b : Z) : Z := Z.rem a b.

(** [array.findIndex(pred)]: the first index that satisfies [pred], or -1. *)
Fixpoint findIndex {A : Type} (pred : A -> bool) (l : list A) : Z :=
  match l with
  | [] => -1
  | x :: rest =>
      if pred x then 0
      else let i := findIndex pred rest in if i <? 0 then -1 else i + 1
  end.

(** [array[i]] for an integer [i]; [None] stands for [undefined]. *)
Definition Array_get {A : Type} (l : list A) (i : Z) : option A :=
  if i <? 0 then None else l !! Z.to_nat i.

(** [Array.prototype.sort(cmp)] belongs to the engine.  ECMAScript requires
    it to be stable and, for a consistent comparator, to order the array by
    it; it is embedded as the stable insertion sort.  [cmp a b <= 0] keeps
    [a] before [b]. *)
Fixpoint Array_insert {A : Type} (cmp : A -> A -> Z) (x : A) (l : list A) : list A :=
  match l with
  | [] => [x]
  | y :: rest => if cmp x y <=? 0 then x :: y :: rest else y :: Array_insert cmp x rest
  end.

Definition Array_sort {A : Type} (cmp : A -> A -> Z) (l : list A) : list A :=
  foldr (Array_insert cmp) [] l.

(** ** The popup's state *)

(** The elements that can hold the focus: the header, a list item (known by
    the identity of its node) or anything else of the document. *)
Inductive Element : Type :=
| H1
| LI (node : nat)
| Body.

#[global] Instance Element_eq_dec : EqDecision Element.
Proof. solve_decision. Defined.

(** A rendered [<li>]: its [<img>], its [<span>] and its own attributes. *)
Record Li : Type := mkLi {
  li_node : nat;
  li_tabIndex : Z;
  img_alt : string;
  img_src : string;
  span_textContent : string;
  li_title : string;
  li_dataset_enabled : bool
}.

(** [document.createElement("li")] with its [<img>] and [<span>] appended
    and [tabIndex = 0]. *)
Definition createLi (node : nat) : Li := mkLi node 0 "" "" "" "" false.

(** The fields of [ExtensionManager] ([nodes.h1] and [nodes.ul] by their
    content), then the browser: the local storage, the element that was last
    given the focus, the supply of fresh nodes, and whether [nodes.h1] (with
    its [tabIndex = 0]) and [nodes.ul] have been appended to [nodes.app],
    which [renderExtensions] does and nothing undoes. *)
Record State : Type := mkState {
  partition : bool;
  maxIconSize : Z;
  excludeType : gset string;
  allExtIdMap : gmap nat ExtensionInfo.t;
  eidDisabledSet : list string;
  h1_textContent : string;
  ul_children : list Li;
  localStorage : gmap string string;
  focused : Element;
  next_node : nat;
  attached : bool
}.

Definition set_allExtIdMap (m : gmap nat ExtensionInfo.t) (st : State) : State :=
  mkState (partition st) (maxIconSize st) (excludeType st) m (eidDisabledSet st)
    (h1_textContent st) (ul_children st) (localStorage st) (focused st) (next_node st)
    (attached st).

Definition set_eidDisabledSet (s : list string) (st : State) : State :=
  mkState (partition st) (maxIconSize st) (excludeType st) (allExtIdMap st) s
    (h1_textContent st) (ul_children st) (localStorage st) (focused st) (next_node st)
    (attached st).

Definition set_h1_textContent (text : string) (st : State) : State :=
  mkState (partition st) (maxIconSize st) (excludeType st) (allExtIdMap st) (eidDisabledSet st)
    text (ul_children st) (localStorage st) (focused st) (next_node st)
    (attached st).

Definition set_ul_children (children : list Li) (st : State) : State :=
  mkState (partition st) (maxIconSize st) (excludeType st) (allExtIdMap st) (eidDisabledSet st)
    (h1_textContent st) children (localStorage st) (focused st) (next_node st)
    (attached st).

Definition set_localStorage (ls : gmap string string) (st : State) : State :=
  mkState (partition st) (maxIconSize st) (excludeType st) (allExtIdMap st) (eidDisabledSet st)
    (h1_textContent st) (ul_children st) ls (focused st) (next_node st)
    (attached st).

Definition set_activeElement (el : Element) (st : State) : State :=
  mkState (partition st) (maxIconSize st) (excludeType st) (allExtIdMap st) (eidDisabledSet st)
    (h1_textContent st) (ul_children st) (localStorage st) el (next_node st)
    (attached st).

Definition set_next_node (n : nat) (st : State) : State :=
  mkState (partition st) (maxIconSize st) (excludeType st) (allExtIdMap st) (eidDisabledSet st)
    (h1_textContent st) (ul_children st) (localStorage st) (focused st) n
    (attached st).

Definition set_attached (b : bool) (st : State) : State :=
  mkState (partition st) (maxIconSize st) (excludeType st) (allExtIdMap st) (eidDisabledSet st)
    (h1_textContent st) (ul_children st) (localStorage st) (focused st) (next_node st) b.

(** [document.activeElement]: the element that was given the focus, as long
    as the header and the list are in the document; the body otherwise. *)
Definition activeElement (st : State) : Element :=
  if attached st then focused st else Body.

(** [new ExtensionManager(excludeType)] in a browser whose local storage is
    [ls]: [nodes.h1] and [nodes.ul] are created, not yet appended to the
    document; nothing is rendered or focused. *)
Definition constructor (excludeType : gset string) (ls : gmap string string) : State :=
  mkState false 64 excludeType ∅ [] "" [] ls Body 0 false.

(** ** Calls to the platform *)

(** The completion callback of a bulk-disable request: the closure over
    [item.id] and [tailId]; [None] is the [false] of an empty list. *)
Inductive Callback : Type :=
| DisableDone (item_id : string) (tailId : option string).

(** The three callbacks handed to [chrome.management.getAll]. *)
Inductive GetAllCallback : Type :=
| RenderExtensions
| OneKeyDisable
| OneKeyRestore.

Inductive Call : Type :=
| management_getAll (k : GetAllCallback)
| management_get (id : string)
| management_setEnabled (id : string) (enabled : bool) (callback : option Callback).

(** What the user and the platform can do to the popup. *)
Inductive Event : Type :=
| Click (target : Element)
| KeyUp (key : string) (target : Element)
| KeyDown (key : string) (shiftKey : bool)
| onEnabled (item : ExtensionInfo.t)
| onDisabled (item : ExtensionInfo.t)
| onInstalled
| onUninstalled.

(** [set.size] used as a condition. *)
Definition has_size (s : list string) : bool :=
  match s with
  | [] => false
  | _ :: _ => true
  end.

(** ** The methods of [ExtensionManager] *)

Section ExtensionManager.

(** [chrome.runtime.id], [chrome.i18n.getMessage], the storage key
    [Config.deiKey] and [String.prototype.localeCompare(_, "en-US")] are
    given by the platform and by the configuration module. *)
Variable runtime_id : string.
Variable getMessage : string -> string.
Variable deiKey : string.
Variable localeCompare : string -> string -> Z.

(** [Config.eTypeChecked], the default "show" flag of each extension type. *)
Variable eTypeChecked : gmap string bool.

Definition readFromLocal (st : State) : State :=
  let data := localStorage st !! deiKey in
  let ids := if truthy data then String_split comma (default "" data) else [] in
  set_eidDisabledSet (foldl (fun s id => Set_add id s) (eidDisabledSet st) ids) st.

Definition writeToLocal (st : State) : State :=
  set_localStorage (<[deiKey := Array_join comma (eidDisabledSet st)]> (localStorage st)) st.

Definition defSortFunction (prev next : ExtensionInfo.t) : Z :=
  localeCompare (ExtensionInfo.name prev) (ExtensionInfo.name next).

(** The loop that pushes each item on [enabled] or on [disabled]. *)
Definition sortByASCII_push (acc : list ExtensionInfo.t * list ExtensionInfo.t)
    (item : ExtensionInfo.t) : list ExtensionInfo.t * list ExtensionInfo.t :=
  if ExtensionInfo.enabled item then (acc.1 ++ [item], acc.2) else (acc.1, acc.2 ++ [item]).

Definition sortByASCII (st : State) (all : list ExtensionInfo.t) : list ExtensionInfo.t :=
  if partition st then
    let parts := foldl sortByASCII_push ([], []) all in
    Array_sort defSortFunction parts.1 ++ Array_sort defSortFunction parts.2
  else Array_sort defSortFunction all.

(** The icon [renderExtensionState] settles on before it writes [img.src]. *)
Definition iconInfo (st : State) (item : ExtensionInfo.t) : IconInfo.t :=
  match ExtensionInfo.icons item with
  | Some (firstIcon :: restIcons) =>
      foldl (fun info icon =>
               if (IconInfo.size info <? IconInfo.size icon)
                  && (IconInfo.size icon <? maxIconSize st)
               then icon else info)
            firstIcon restIcons
  | _ => IconInfo.mk 32 ("chrome://extension-icon/" +:+ ExtensionInfo.id item +:+ "/32/0")
  end.

Definition renderExtensionState (st : State) (li : Li) (item : ExtensionInfo.t) : Li :=
  let info := iconInfo st item in
  let label := or_else (ExtensionInfo.shortName item) (ExtensionInfo.name item) in
  {| li_node := li_node li;
     li_tabIndex := li_tabIndex li;
     img_alt := label;
     img_src := IconInfo.url info
                +:+ (if ExtensionInfo.enabled item then "" else "?grayscale=true");
     span_textContent := label;
     li_title := getMessage (if ExtensionInfo.enabled item
                             then "disable_extension" else "enable_extension");
     li_dataset_enabled := ExtensionInfo.enabled item |}.

(** [item.id === chrome.runtime.id || this.excludeType.has(item.type)] *)
Definition hidden (st : State) (item : ExtensionInfo.t) : bool :=
  String.eqb (ExtensionInfo.id item) runtime_id
  || bool_decide (ExtensionInfo.type item ∈ excludeType st).

(** One round of the [forEach] of [renderExtensions]; the fragment under
    construction is threaded with the state. *)
Definition renderExtensions_item (acc : State * list Li) (item : ExtensionInfo.t)
    : State * list Li :=
  let st := acc.1 in
  if hidden st item then acc
  else
    let li := renderExtensionState st (createLi (next_node st)) item in
    (set_allExtIdMap (<[li_node li := item]> (allExtIdMap st))
       (set_next_node (S (next_node st)) st),
     acc.2 ++ [li]).

(** The callback of [renderExtensions].  Emptying [nodes.app] takes the
    header and the list out of the document, so the focus falls back to the
    body; the header, now with [tabIndex = 0], and the list are then
    appended. *)
Definition renderExtensions_callback (all : list ExtensionInfo.t) (st : State) : State :=
  let acc := foldl renderExtensions_item (st, []) (sortByASCII st all) in
  let st := acc.1 in
  let st := set_h1_textContent
              (getMessage (if has_size (eidDisabledSet st)
                           then "one_key_restore" else "one_key_disable")) st in
  set_attached true (set_activeElement Body (set_ul_children acc.2 st)).

Definition renderExtensions (st : State) : State * list Call :=
  (st, [management_getAll RenderExtensions]).

Definition init (st : State) : State * list Call :=
  renderExtensions (readFromLocal st).

(** *** Keyboard focus *)

Definition clickableElements (st : State) : list Element :=
  [H1] ++ map (fun li => LI (li_node li)) (ul_children st).

(** [element.focus()] on the header or an item of the list: the focus moves
    to the element when it is in the document, where it has [tabIndex = 0];
    outside the document the call does nothing.  On [undefined] the call
    throws and nothing moves. *)
Definition focus (el : option Element) (st : State) : State :=
  match el with
  | Some el => if attached st then set_activeElement el st else st
  | None => st
  end.

Definition focusClickableElement (offset : Z) (st : State) : State :=
  let els := clickableElements st in
  let index := findIndex (fun element => bool_decide (element = activeElement st)) els in
  let len := Z.of_nat (length els) in
  if offset =? 1 then
    focus (Array_get els (js_rem (index + offset) len)) st
  else if offset =? -1 then
    focus (Array_get els (js_rem (Z.max index 0 + offset + len) len)) st
  else st.

(** *** Single toggles *)

Fixpoint toggleExtensionState_loop (st : State) (item : ExtensionInfo.t)
    (children : list Li) : list Li :=
  match children with
  | [] => []
  | li :: rest =>
      match allExtIdMap st !! li_node li with
      | Some known =>
          if String.eqb (ExtensionInfo.id known) (ExtensionInfo.id item)
          then renderExtensionState st li item :: rest
          else li :: toggleExtensionState_loop st item rest
      | None => li :: toggleExtensionState_loop st item rest
      end
  end.

Definition toggleExtensionState (item : ExtensionInfo.t) (st : State) : State :=
  set_ul_children (toggleExtensionState_loop st item (ul_children st)) st.

(** The callback of [chrome.management.get] in the click listener of the
    list. *)
Definition get_callback (item : ExtensionInfo.t) : list Call :=
  [management_setEnabled (ExtensionInfo.id item) (negb (ExtensionInfo.enabled item)) None].

(** *** Bulk disable *)

(** The predicate of [list.filter] in [oneKeyDisable]. *)
Definition oneKeyDisable_keep (st : State) (item : ExtensionInfo.t) : bool :=
  negb (String.eqb (ExtensionInfo.id item) runtime_id)
  && negb (bool_decide (ExtensionInfo.type item ∈ excludeType st))
  && ExtensionInfo.enabled item.

(** The [while] loop: one request per item shifted off [filtered]. *)
Fixpoint oneKeyDisable_loop (tailId : option string) (filtered : list ExtensionInfo.t)
    : list Call :=
  match filtered with
  | [] => []
  | item :: filtered =>
      management_setEnabled (ExtensionInfo.id item) false
        (Some (DisableDone (ExtensionInfo.id item) tailId))
      :: oneKeyDisable_loop tailId filtered
  end.

Definition oneKeyDisable_filtered (st : State) (all : list ExtensionInfo.t)
    : list ExtensionInfo.t :=
  List.filter (oneKeyDisable_keep st) all.

Definition oneKeyDisable_callback (all : list ExtensionInfo.t) (st : State)
    : State * list Call :=
  let filtered := oneKeyDisable_filtered st all in
  let tailId := ExtensionInfo.id <$> last filtered in
  (st, oneKeyDisable_loop tailId filtered).

(** The completion callback of one disable request. *)
Definition setEnabled_callback (cb : Callback) (st : State) : State :=
  match cb with
  | DisableDone item_id tailId =>
      let st := set_eidDisabledSet (Set_add item_id (eidDisabledSet st)) st in
      if bool_decide (Some item_id = tailId)
      then set_h1_textContent (getMessage "one_key_restore") (writeToLocal st)
      else st
  end.

Definition oneKeyDisable (st : State) : State * list Call :=
  (st, [management_getAll OneKeyDisable]).

(** *** Bulk restore *)

(** The function mapped over the list: the identifier, or [undefined]. *)
Definition oneKeyRestore_pick (st : State) (item : ExtensionInfo.t) : option string :=
  if negb (String.eqb (ExtensionInfo.id item) runtime_id)
     && negb (bool_decide (ExtensionInfo.type item ∈ excludeType st))
     && negb (ExtensionInfo.enabled item)
  then Some (ExtensionInfo.id item) else None.

Fixpoint oneKeyRestore_loop (disabledExisting : gset (option string))
    (disabledRecently : list string) : list Call :=
  match disabledRecently with
  | [] => []
  | id :: disabledRecently =>
      (if bool_decide (Some id ∈ disabledExisting)
       then [management_setEnabled id true None] else [])
      ++ oneKeyRestore_loop disabledExisting disabledRecently
  end.

(** [new Set(list.map(...))]; only [has] is ever asked of it. *)
Definition oneKeyRestore_disabledExisting (st : State) (all : list ExtensionInfo.t)
    : gset (option string) :=
  list_to_set (map (oneKeyRestore_pick st) all).

Definition oneKeyRestore_callback (all : list ExtensionInfo.t) (st : State)
    : State * list Call :=
  let disabledRecently := eidDisabledSet st in
  let disabledExisting := oneKeyRestore_disabledExisting st all in
  let calls := oneKeyRestore_loop disabledExisting disabledRecently in
  let st := set_eidDisabledSet [] st in
  let st := writeToLocal st in
  (set_h1_textContent (getMessage "one_key_disable") st, calls).

Definition oneKeyRestore (st : State) : State * list Call :=
  (st, [management_getAll OneKeyRestore]).

(** *** The listeners installed by [addListeners] *)

Definition h1_click (st : State) : State * list Call :=
  if has_size (eidDisabledSet st) then oneKeyRestore st else oneKeyDisable st.

(** [e.target.closest("li")] is the item itself when the click lands on
    one. *)
Definition ul_click (target : Element) (st : State) : State * list Call :=
  match target with
  | LI node =>
      match allExtIdMap st !! node with
      | Some item => (st, [management_get (ExtensionInfo.id item)])
      | None => (st, [])
      end
  | _ => (st, [])
  end.

(** A click reaches the listener of the header, or bubbles from an item to
    the listener of the list. *)
Definition click (target : Element) (st : State) : State * list Call :=
  match target with
  | H1 => h1_click st
  | LI _ => ul_click target st
  | Body => (st, [])
  end.

Definition keyup (key : string) (target : Element) (st : State) : State * list Call :=
  if String.eqb key "Enter" then click target st else (st, []).

Definition keydown (key : string) (shiftKey : bool) (st : State) : State :=
  if String.eqb key "Tab" then focusClickableElement (if shiftKey then -1 else 1) st
  else if String.eqb key "ArrowUp" then focusClickableElement (-1) st
  else if String.eqb key "ArrowDown" then focusClickableElement 1 st
  else st.

Definition handle (e : Event) (st : State) : State * list Call :=
  match e with
  | Click target => click target st
  | KeyUp key target => keyup key target st
  | KeyDown key shiftKey => (keydown key shiftKey st, [])
  | onEnabled item => (toggleExtensionState item st, [])
  | onDisabled item => (toggleExtensionState item st, [])
  | onInstalled => renderExtensions st
  | onUninstalled => renderExtensions st
  end.

(** The platform answers [getAll] by running the callback it was given. *)
Definition getAll_callback (k : GetAllCallback) (all : list ExtensionInfo.t) (st : State)
    : State * list Call :=
  match k with
  | RenderExtensions => (renderExtensions_callback all st, [])
  | OneKeyDisable => oneKeyDisable_callback all st
  | OneKeyRestore => oneKeyRestore_callback all st
  end.

(** The callbacks carried by a list of issued requests, in issuance order. *)
Definition callbacks (calls : list Call) : list Callback :=
  omap (fun c => match c with
                 | management_setEnabled _ _ cb => cb
                 | _ => None
                 end) calls.

(** The callbacks fire one after the other. *)
Definition fire (cbs : list Callback) (st : State) : State :=
  foldl (fun st cb => setEnabled_callback cb st) st cbs.

(** *** Start-up *)

(** [Object.assign(target, source)] on flag tables: the entries of [source]
    override those of [target]; an [undefined] source adds nothing. *)
Definition Object_assign (target : gmap string bool) (source : option (gmap string bool))
    : gmap string bool :=
  match source with
  | Some source => source ∪ target
  | None => target
  end.

(** The loop over [Object.entries(eTypeChecked)]: the types whose flag is
    false are excluded. *)
Definition main_excludeType (stored : option (gmap string bool)) : gset string :=
  foldl (fun excludeType entry =>
           if negb entry.2 then {[entry.1]} ∪ excludeType else excludeType)
        ∅ (map_to_list (Object_assign eTypeChecked stored)).

(** The callback of [chrome.storage.sync.get(Config.etcKey, ...)] at the
    bottom of the script: [stored] is [items[Config.etcKey]], [ls] the local
    storage the popup opens with. *)
Definition main (stored : option (gmap string bool)) (ls : gmap string string)
    : State * list Call :=
  init (constructor (main_excludeType stored) ls).

(** *** Runs of the popup *)

(** What reaches the popup after start-up: an event, the answer of the
    platform to a [getAll], or the completion of a disable request. *)
Inductive Input : Type :=
| Dispatch (e : Event)
| GetAllAnswer (k : GetAllCallback) (all : list ExtensionInfo.t)
| SetEnabledDone (cb : Callback).

Definition step (i : Input) (st : State) : State :=
  match i with
  | Dispatch e => (handle e st).1
  | GetAllAnswer k all => (getAll_callback k all st).1
  | SetEnabledDone cb => setEnabled_callback cb st
  end.

Definition run (inputs : list Input) (st : State) : State :=
  foldl (fun st i => step i st) st inputs.

(** ** Vocabulary of the statements *)

(** The identifier a completion callback was made for, and whether it is the
    callback of the last request. *)
Definition callback_id (cb : Callback) : string :=
  match cb with
  | DisableDone item_id _ => item_id
  end.

Definition is_tail (cb : Callback) : Prop :=
  match cb with
  | DisableDone item_id tailId => tailId = Some item_id
  end.

(** An identifier without a comma. *)
Fixpoint comma_free (s : string) : bool :=
  match s with
  | EmptyString => true
  | String c rest => negb (Ascii.eqb c comma) && comma_free rest
  end.

(** [stored] is the identifiers [ids], in order, with a comma between one
    and the next: the empty string for no identifier, the identifier itself
    for one. *)
Inductive comma_separated : list string -> string -> Prop :=
| comma_separated_nil : comma_separated [] ""
| comma_separated_one (id : string) : comma_separated [id] id
| comma_separated_more (id other : string) (ids : list string) (stored : string) :
    comma_separated (other :: ids) stored ->
    comma_separated (id :: other :: ids) (id +:+ "," +:+ stored).

(** What the storage holds under the key is the set [ids] written out: the
    identifiers separated by commas, which split at the commas into [ids]
    again when no identifier has a comma. *)
Definition persisted (ids : list string) (st : State) : Prop :=
  exists stored,
    localStorage st !! deiKey = Some stored
    /\ comma_separated ids stored
    /\ (Forall (fun id => comma_free id = true) ids -> ids <> [] ->
        String_split comma stored = ids).

(** Persist the set [ids], then load it into an empty in-memory set. *)
Definition save_then_load (ids : list string) (st : State) : State :=
  readFromLocal (set_eidDisabledSet [] (writeToLocal (set_eidDisabledSet ids st))).

(** The round trip gives back the same set of identifiers. *)
Definition roundtrip_at (ids : list string) (st : State) : Prop :=
  list_to_set (eidDisabledSet (save_then_load ids st)) =@{gset string} list_to_set ids.

(** [chosen] is an icon of [icons] of the largest size below [bound]. *)
Definition largest_below (bound : Z) (icons : list IconInfo.t) (chosen : IconInfo.t) : Prop :=
  In chosen icons
  /\ IconInfo.size chosen < bound
  /\ forall icon, In icon icons -> IconInfo.size icon < bound ->
                  IconInfo.size icon <= IconInfo.size chosen.

(** The generic icon of the platform for an identifier. *)
Definition generic_icon (id : string) : IconInfo.t :=
  IconInfo.mk 32 ("chrome://extension-icon/" +:+ id +:+ "/32/0").

(** [li] is a node made before [st], drawn from [item] as [st0] draws it and
    tied to [item] in the association of [st]. *)
Definition rendered_for (st0 st : State) (li : Li) (item : ExtensionInfo.t) : Prop :=
  (li_node li < next_node st)%nat
  /\ allExtIdMap st !! li_node li = Some item
  /\ li = renderExtensionState st0 (createLi (li_node li)) item.

(** [a] does not come after [b] in the order that [compare], a comparison
    of strings, gives to their names. *)
Definition name_le_under (compare : string -> string -> Z) (a b : ExtensionInfo.t) : Prop :=
  compare (ExtensionInfo.name a) (ExtensionInfo.name b) <= 0.

(** ** Sample data *)

Definition icon16 : IconInfo.t := IconInfo.mk 16 "a16.png".
Definition icon48 : IconInfo.t := IconInfo.mk 48 "a48.png".
Definition icon128 : IconInfo.t := IconInfo.mk 128 "a128.png".

(** An enabled extension with the usual three icons. *)
Definition extA : ExtensionInfo.t :=
  ExtensionInfo.mk "aaaa" "Alpha" None true "extension" (Some [icon16; icon48; icon128]).

(** A disabled extension with an empty short name and no icons. *)
Definition extB : ExtensionInfo.t :=
  ExtensionInfo.mk "bbbb" "Beta blocker" (Some "") false "extension" None.

(** The extension that hosts the popup. *)
Definition extSelf : ExtensionInfo.t :=
  ExtensionInfo.mk "self" "Extensions Manager" (Some "Manager") true "extension" None.

(** An extension without a name: no short name, an empty full name. *)
Definition extNameless : ExtensionInfo.t :=
  ExtensionInfo.mk "nnnn" "" None true "extension" None.

(** An enabled extension that comes with one large icon only. *)
Definition extLarge : ExtensionInfo.t :=
  ExtensionInfo.mk "llll" "Large" None true "extension" (Some [icon128]).

(** An enabled theme whose large icon is listed first. *)
Definition extTheme : ExtensionInfo.t :=
  ExtensionInfo.mk "tttt" "Theme" None true "theme" (Some [icon128; icon48]).

(** [extA] and [extTheme] as the platform reports them once disabled. *)
Definition extA_off : ExtensionInfo.t :=
  ExtensionInfo.mk "aaaa" "Alpha" None false "extension" (Some [icon16; icon48; icon128]).

Definition extTheme_off : ExtensionInfo.t :=
  ExtensionInfo.mk "tttt" "Theme" None false "theme" (Some [icon128; icon48]).

(** Two more extensions, to sort names that differ in case only. *)
Definition extAlphaLower : ExtensionInfo.t :=
  ExtensionInfo.mk "cccc" "alpha" None false "extension" None.

Definition extBeta : ExtensionInfo.t :=
  ExtensionInfo.mk "dddd" "beta" None true "extension" None.

(** A collation of ASCII names in the manner of "en-US", to run the sorter
    with.  The names are compared letter by letter without regard to case
    ([asciiCaseInsensitiveCompare]); the comparison with default options
    ([asciiLocaleCompare]) then tells apart the names that differ in case
    only, lower case first. *)
Definition letter_key (c : Ascii.ascii) : N :=
  let n := Ascii.N_of_ascii c in
  (if (65 <=? n) && (n <=? 90) then n + 33 else n + 1)%N.

Definition case_key (c : Ascii.ascii) : N :=
  let n := Ascii.N_of_ascii c in
  (if (65 <=? n) && (n <=? 90) then 1 else 0)%N.

Fixpoint keys (weight : Ascii.ascii -> N) (s : string) : list N :=
  match s with
  | EmptyString => []
  | String c rest => weight c :: keys weight rest
  end.

Fixpoint compare_keys (a b : list N) : Z :=
  match a, b with
  | [], [] => 0
  | [], _ :: _ => -1
  | _ :: _, [] => 1
  | x :: a, y :: b =>
      if (x <? y)%N then -1 else if (y <? x)%N then 1 else compare_keys a b
  end.

Definition asciiCaseInsensitiveCompare (a b : string) : Z :=
  compare_keys (keys letter_key a) (keys letter_key b).

Definition asciiLocaleCompare (a b : string) : Z :=
  compare_keys (keys letter_key a ++ 0%N :: keys case_key a)
               (keys letter_key b ++ 0%N :: keys case_key b).

(** A comparator to run the sorter with: shorter names first. *)
Definition lengthCompare (a b : string) : Z :=
  Z.of_nat (String.length a) - Z.of_nat (String.length b).

(** A fresh popup, without and with the themes excluded. *)
Definition popup0 : State := constructor ∅ ∅.
Definition popup_no_theme : State := constructor {["theme"]} ∅.

(** A popup in partition mode. *)
Definition popup_partitioned : State := mkState true 64 ∅ ∅ [] "" [] ∅ Body 0 false.

(** The popup once [all] is rendered and the focus is on node [node]. *)
Definition popup_focused (all : list ExtensionInfo.t) (node : nat) : State :=
  set_activeElement (LI node) (renderExtensions_callback all popup0).

(** * Properties *)

(** Propositional reasoning that leaves the parameters of the platform out
    of the proof. *)
Local Ltac logic :=
  try clear localeCompare; try clear getMessage; try clear deiKey; try clear runtime_id;
  tauto.

(** ** Strings, arrays and sets *)

Lemma String_split_comma_free (s : string) :
  comma_free s = true -> String_split comma s = [s].
Proof.
  induction s as [|c s IH]; simpl; [done|].
  intros [Hc Hs]%andb_true_iff.
  apply negb_true_iff in Hc. rewrite Hc, (IH Hs). done.
Qed.

Lemma String_split_app (x r : string) :
  comma_free x = true ->
  String_split comma (x +:+ String comma r) = x :: String_split comma r.
Proof.
  induction x as [|c x IH]; simpl.
  - done.
  - intros [Hc Hx]%andb_true_iff.
    apply negb_true_iff in Hc. rewrite Hc, (IH Hx). done.
Qed.

Lemma String_split_join (l : list string) :
  l <> [] -> Forall (fun x => comma_free x = true) l ->
  String_split comma (Array_join comma l) = l.
Proof.
  induction l as [|x [|y rest] IH]; intros Hne Hall; [done| |].
  - simpl. apply String_split_comma_free. by inversion Hall.
  - inversion Hall as [|? ? Hx Hrest]; subst.
    change (Array_join comma (x :: y :: rest))
      with (x +:+ String comma (Array_join comma (y :: rest))).
    rewrite String_split_app by done. f_equal. by apply IH.
Qed.

Lemma Array_join_empty (l : list string) :
  Array_join comma l = "" -> l = [] \/ l = [""].
Proof.
  destruct l as [|x [|y rest]]; simpl; [by left | intros ->; by right |].
  destruct x; discriminate.
Qed.

Lemma Set_add_fresh (x : string) (s : list string) : x ∉ s -> Set_add x s = s ++ [x].
Proof. intros H. unfold Set_add, Set_has. by rewrite bool_decide_eq_false_2. Qed.

Lemma Set_add_known (x : string) (s : list string) : x ∈ s -> Set_add x s = s.
Proof. intros H. unfold Set_add, Set_has. by rewrite bool_decide_eq_true_2. Qed.

Lemma Set_add_elem (x y : string) (s : list string) : y ∈ Set_add x s <-> y = x \/ y ∈ s.
Proof.
  destruct (decide (x ∈ s)) as [Hin|Hout].
  - rewrite Set_add_known by done. split; [by right | by intros [->|?]].
  - rewrite Set_add_fresh by done. rewrite elem_of_app, list_elem_of_singleton. logic.
Qed.

Lemma Set_add_NoDup (x : string) (s : list string) : NoDup s -> NoDup (Set_add x s).
Proof.
  intros Hs. destruct (decide (x ∈ s)) as [Hin|Hout].
  - by rewrite Set_add_known.
  - rewrite Set_add_fresh by done. apply NoDup_app. split_and!; [done| |apply NoDup_singleton].
    intros y Hy ->%list_elem_of_singleton. done.
Qed.

Lemma foldl_Set_add_NoDup (l s : list string) :
  NoDup (s ++ l) -> foldl (fun s id => Set_add id s) s l = s ++ l.
Proof.
  revert s. induction l as [|x l IH]; intros s Hnd; simpl.
  - by rewrite app_nil_r.
  - rewrite Set_add_fresh.
    + rewrite IH; rewrite <- app_assoc; done.
    + apply NoDup_app in Hnd as (_ & Hdisj & _). intros Hx. apply (Hdisj x Hx). left.
Qed.

Lemma foldl_Set_add_elem (l s : list string) (y : string) :
  y ∈ foldl (fun s id => Set_add id s) s l <-> y ∈ s \/ y ∈ l.
Proof.
  revert s. induction l as [|x l IH]; intros s; simpl.
  - rewrite elem_of_nil. logic.
  - rewrite IH, Set_add_elem, elem_of_cons. logic.
Qed.

(** ** Persistence *)

Lemma writeToLocal_lookup (st : State) :
  localStorage (writeToLocal st) !! deiKey = Some (Array_join comma (eidDisabledSet st)).
Proof. unfold writeToLocal. simpl. apply lookup_insert_eq. Qed.

Lemma writeToLocal_eidDisabledSet (st : State) :
  eidDisabledSet (writeToLocal st) = eidDisabledSet st.
Proof. reflexivity. Qed.

Lemma save_then_load_eq (ids : list string) (st : State) :
  eidDisabledSet (save_then_load ids st)
  = if truthy (Some (Array_join comma ids))
    then foldl (fun s id => Set_add id s) [] (String_split comma (Array_join comma ids))
    else [].
Proof.
  unfold save_then_load, readFromLocal. simpl.
  rewrite lookup_insert_eq. simpl. by destruct (String.eqb _ _).
Qed.

(** C6 (amended): for every set of comma-free identifiers other than the
    set whose only member is the empty string, saving the set and loading it
    into an empty in-memory set gives back the same identifiers, in the same
    insertion order and hence the same set; the empty set comes back
    empty. *)
Theorem save_then_load_roundtrip (ids : list string) (st : State) :
  NoDup ids ->
  Forall (fun id => comma_free id = true) ids ->
  ids <> [""] ->
  eidDisabledSet (save_then_load ids st) = ids /\ roundtrip_at ids st.
Proof.
  intros Hnd Hfree Hne.
  assert (eidDisabledSet (save_then_load ids st) = ids) as Heq.
  { rewrite save_then_load_eq. simpl.
    destruct (String.eqb_spec (Array_join comma ids) "") as [Hempty|Hfull]; simpl.
    - apply Array_join_empty in Hempty as [->| ->]; done.
    - rewrite String_split_join; [by apply (foldl_Set_add_NoDup ids [])|by intros ->|done]. }
  split; [done|]. unfold roundtrip_at. by rewrite Heq.
Qed.

(** ** Sorting *)

Section Array_sort.
Context {A : Type} (cmp : A -> A -> Z).

Lemma Array_insert_Permutation (x : A) (l : list A) : Array_insert cmp x l ≡ₚ x :: l.
Proof.
  induction l as [|y l IH]; simpl; [done|].
  destruct (cmp x y <=? 0); [done|].
  rewrite IH. apply Permutation_swap.
Qed.

Lemma Array_sort_Permutation (l : list A) : Array_sort cmp l ≡ₚ l.
Proof.
  induction l as [|x l IH]; simpl; [done|].
  rewrite Array_insert_Permutation. by f_equiv.
Qed.

Hypothesis cmp_total : forall a b, 0 < cmp a b -> cmp b a <= 0.
Hypothesis cmp_trans : forall a b c, cmp a b <= 0 -> cmp b c <= 0 -> cmp a c <= 0.

Lemma Array_insert_sorted (x : A) (l : list A) :
  StronglySorted (fun a b => cmp a b <= 0) l ->
  StronglySorted (fun a b => cmp a b <= 0) (Array_insert cmp x l).
Proof using cmp_total cmp_trans.
  induction 1 as [|y l Hsorted IH Hy]; simpl.
  - repeat constructor.
  - destruct (Z.leb_spec (cmp x y) 0) as [Hle|Hgt].
    + constructor; [by constructor|].
      constructor; [done|].
      eapply Forall_impl; [exact Hy|]. intros z Hz. by eapply cmp_trans.
    + constructor; [done|].
      rewrite Array_insert_Permutation. constructor; [by apply cmp_total | done].
Qed.

Lemma Array_sort_sorted (l : list A) :
  StronglySorted (fun a b => cmp a b <= 0) (Array_sort cmp l).
Proof using cmp_total cmp_trans.
  induction l as [|x l IH]; simpl; [constructor|]. by apply Array_insert_sorted.
Qed.

End Array_sort.

Lemma sortByASCII_push_filter (all en dis : list ExtensionInfo.t) :
  foldl sortByASCII_push (en, dis) all
  = (en ++ List.filter ExtensionInfo.enabled all,
     dis ++ List.filter (fun item => negb (ExtensionInfo.enabled item)) all).
Proof.
  revert en dis. induction all as [|item all IH]; intros en dis; simpl.
  - by rewrite !app_nil_r.
  - unfold sortByASCII_push at 2. destruct (ExtensionInfo.enabled item); simpl.
    + rewrite IH. by rewrite <- app_assoc.
    + rewrite IH. by rewrite <- app_assoc.
Qed.

Lemma filter_enabled_Permutation (all : list ExtensionInfo.t) :
  List.filter ExtensionInfo.enabled all
  ++ List.filter (fun item => negb (ExtensionInfo.enabled item)) all ≡ₚ all.
Proof.
  induction all as [|item all IH]; simpl; [done|].
  destruct (ExtensionInfo.enabled item); simpl.
  - by f_equiv.
  - rewrite <- Permutation_middle. by f_equiv.
Qed.

Lemma sortByASCII_partitioned (st : State) (all : list ExtensionInfo.t) :
  partition st = true ->
  sortByASCII st all
  = Array_sort defSortFunction (List.filter ExtensionInfo.enabled all)
    ++ Array_sort defSortFunction
         (List.filter (fun item => negb (ExtensionInfo.enabled item)) all).
Proof.
  intros Hpart. unfold sortByASCII.
  by rewrite Hpart, (sortByASCII_push_filter all [] []).
Qed.

Lemma sortByASCII_Permutation (st : State) (all : list ExtensionInfo.t) :
  sortByASCII st all ≡ₚ all.
Proof.
  destruct (partition st) eqn:Hpart.
  - rewrite sortByASCII_partitioned by done.
    rewrite !Array_sort_Permutation. apply filter_enabled_Permutation.
  - unfold sortByASCII. rewrite Hpart. apply Array_sort_Permutation.
Qed.

Section Collation.

(** The platform's part.  [localeCompare] is the comparison the code calls,
    [prev.name.localeCompare(next.name, "en-US")] with no options; a
    collation is a consistent comparator: of two names one comes first, and
    coming first is transitive.  [caseInsensitiveCompare] is the same "en-US"
    collation asked not to tell case apart.  A collation compares the base
    letters first and lets case decide only between names that are otherwise
    alike, so what comes first with case told apart does not come after
    without. *)
Variable caseInsensitiveCompare : string -> string -> Z.
Hypothesis localeCompare_total : forall a b, 0 < localeCompare a b -> localeCompare b a <= 0.
Hypothesis localeCompare_trans :
  forall a b c, localeCompare a b <= 0 -> localeCompare b c <= 0 -> localeCompare a c <= 0.
Hypothesis localeCompare_refines :
  forall a b, localeCompare a b <= 0 -> caseInsensitiveCompare a b <= 0.

Lemma Array_sort_name_sorted (l : list ExtensionInfo.t) :
  StronglySorted (name_le_under localeCompare) (Array_sort defSortFunction l)
  /\ StronglySorted (name_le_under caseInsensitiveCompare) (Array_sort defSortFunction l).
Proof using localeCompare_total localeCompare_trans localeCompare_refines.
  assert (StronglySorted (name_le_under localeCompare) (Array_sort defSortFunction l))
    as Hsorted.
  { apply (Array_sort_sorted defSortFunction); unfold defSortFunction.
    - intros a b. apply localeCompare_total.
    - intros a b c. apply localeCompare_trans. }
  split; [done|].
  induction Hsorted as [|item rest Hrest IH Hitem]; constructor; [done|].
  eapply Forall_impl; [exact Hitem|]. intros next. apply localeCompare_refines.
Qed.

(** C4: the sorter returns a permutation of its input.  Without the
    partition flag the output is non-decreasing by name under the "en-US"
    comparison the code calls, and so under the case-insensitive "en-US"
    comparison; with the flag it is the enabled records, sorted in the same
    way, followed by the disabled records, sorted in the same way. *)
Theorem sortByASCII_sorted (st : State) (all : list ExtensionInfo.t) :
  sortByASCII st all ≡ₚ all
  /\ if partition st then
       let enabled := Array_sort defSortFunction (List.filter ExtensionInfo.enabled all) in
       let disabled :=
         Array_sort defSortFunction
           (List.filter (fun item => negb (ExtensionInfo.enabled item)) all) in
       sortByASCII st all = enabled ++ disabled
       /\ Forall (fun item => ExtensionInfo.enabled item = true) enabled
       /\ Forall (fun item => ExtensionInfo.enabled item = false) disabled
       /\ (forall item, In item all -> ExtensionInfo.enabled item = true -> In item enabled)
       /\ (forall item, In item all -> ExtensionInfo.enabled item = false -> In item disabled)
       /\ StronglySorted (name_le_under localeCompare) enabled
       /\ StronglySorted (name_le_under localeCompare) disabled
       /\ StronglySorted (name_le_under caseInsensitiveCompare) enabled
       /\ StronglySorted (name_le_under caseInsensitiveCompare) disabled
     else StronglySorted (name_le_under localeCompare) (sortByASCII st all)
          /\ StronglySorted (name_le_under caseInsensitiveCompare) (sortByASCII st all).
Proof using localeCompare_total localeCompare_trans localeCompare_refines.
  split; [apply sortByASCII_Permutation|].
  destruct (partition st) eqn:Hpart.
  - split_and!; try apply Array_sort_name_sorted.
    + by apply sortByASCII_partitioned.
    + apply Forall_forall. intros item Hin.
      rewrite Array_sort_Permutation in Hin.
      apply list_elem_of_In, filter_In in Hin. logic.
    + apply Forall_forall. intros item Hin.
      rewrite Array_sort_Permutation in Hin.
      apply list_elem_of_In, filter_In in Hin as [_ Hoff]. by apply negb_true_iff.
    + intros item Hin Hen. apply list_elem_of_In. rewrite Array_sort_Permutation.
      apply list_elem_of_In, filter_In. done.
    + intros item Hin Hen. apply list_elem_of_In. rewrite Array_sort_Permutation.
      apply list_elem_of_In, filter_In. by rewrite Hen.
  - unfold sortByASCII. rewrite Hpart. apply Array_sort_name_sorted.
Qed.

End Collation.

(** ** Rendering one item *)

(** The step of the loop over [restIcons]. *)
Lemma iconInfo_loop_size (bound : Z) (rest : list IconInfo.t) (info : IconInfo.t) :
  let chosen :=
    foldl (fun info icon =>
             if (IconInfo.size info <? IconInfo.size icon) && (IconInfo.size icon <? bound)
             then icon else info) info rest in
  IconInfo.size info <= IconInfo.size chosen
  /\ In chosen (info :: rest)
  /\ (IconInfo.size info < bound -> IconInfo.size chosen < bound)
  /\ (forall icon, In icon rest -> IconInfo.size icon < bound ->
                   IconInfo.size icon <= IconInfo.size chosen).
Proof.
  revert info. induction rest as [|icon rest IH]; intros info; simpl.
  - split_and!; [lia | by left | done | logic].
  - match goal with |- context [foldl _ ?step rest] => set (next := step) end.
    destruct (IH next) as (Hle & Hin & Hbound & Hmax).
    assert (IconInfo.size info <= IconInfo.size next
            /\ (IconInfo.size icon < bound -> IconInfo.size icon <= IconInfo.size next)
            /\ (IconInfo.size info < bound -> IconInfo.size next < bound)
            /\ (next = icon \/ next = info)) as (H1 & H2 & H3 & H4).
    { subst next.
      destruct (Z.ltb_spec (IconInfo.size info) (IconInfo.size icon));
        destruct (Z.ltb_spec (IconInfo.size icon) bound); simpl;
        split_and!; try lia; auto. }
    split_and!.
    + lia.
    + destruct Hin as [Hin|Hin]; [|by right; right].
      rewrite <- Hin. destruct H4 as [->| ->]; [right; by left | by left].
    + auto.
    + intros other [<-|Hother] Hsmall; [|by apply Hmax].
      specialize (H2 Hsmall). lia.
Qed.

Lemma iconInfo_loop_large (bound : Z) (rest : list IconInfo.t) (info : IconInfo.t) :
  Forall (fun icon => bound <= IconInfo.size icon) rest ->
  foldl (fun info icon =>
           if (IconInfo.size info <? IconInfo.size icon) && (IconInfo.size icon <? bound)
           then icon else info) info rest = info.
Proof.
  induction 1 as [|icon rest Hicon _ IH]; simpl; [done|].
  destruct (Z.ltb_spec (IconInfo.size icon) bound); [lia|].
  by rewrite andb_false_r.
Qed.

(** C3 (amended): a record without icons is drawn with the generic platform
    icon of its identifier at size 32.  When the first icon of the record is
    smaller than 64, the icon drawn is an icon of the record of the largest
    size below 64.  When every icon of the record is 64 or larger, the first
    icon is drawn. *)
Theorem iconInfo_choice (st : State) (item : ExtensionInfo.t) :
  maxIconSize st = 64 ->
  match ExtensionInfo.icons item with
  | None | Some [] => iconInfo st item = generic_icon (ExtensionInfo.id item)
  | Some (firstIcon :: restIcons) =>
      (IconInfo.size firstIcon < 64 ->
       largest_below 64 (firstIcon :: restIcons) (iconInfo st item))
      /\ (Forall (fun icon => 64 <= IconInfo.size icon) (firstIcon :: restIcons) ->
          iconInfo st item = firstIcon)
  end.
Proof.
  intros Hmax. unfold iconInfo. rewrite Hmax.
  destruct (ExtensionInfo.icons item) as [[|firstIcon restIcons]|]; [done| |done].
  split.
  - intros Hfirst.
    destruct (iconInfo_loop_size 64 restIcons firstIcon) as (Hle & Hin & Hbound & Hlargest).
    split_and!; [done | by apply Hbound |].
    intros icon [<-|Hicon] Hsmall; [done | by apply Hlargest].
  - intros Hall. apply iconInfo_loop_large. by inversion Hall.
Qed.

(** C10 (amended): the label and the alternative text of the icon are the
    short name when the short name is a non-empty string, and the full name
    when the short name is absent or empty: an empty short name is never
    shown in place of the full name, and the label is the empty string
    exactly when the full name is empty and the short name is absent or
    empty. *)
Theorem renderExtensionState_label (st : State) (li : Li) (item : ExtensionInfo.t) :
  let rendered := renderExtensionState st li item in
  img_alt rendered = span_textContent rendered
  /\ (forall short, ExtensionInfo.shortName item = Some short -> short <> "" ->
                    span_textContent rendered = short)
  /\ (ExtensionInfo.shortName item = None ->
      span_textContent rendered = ExtensionInfo.name item)
  /\ (ExtensionInfo.shortName item = Some "" ->
      span_textContent rendered = ExtensionInfo.name item)
  /\ (span_textContent rendered = "" -> ExtensionInfo.name item = "")
  /\ (span_textContent rendered = "" <->
      ExtensionInfo.name item = ""
      /\ (ExtensionInfo.shortName item = None \/ ExtensionInfo.shortName item = Some "")).
Proof.
  simpl. unfold or_else. split_and!; [done|..].
  - intros short -> Hne. by apply String.eqb_neq in Hne as ->.
  - by intros ->.
  - by intros ->.
  - destruct (ExtensionInfo.shortName item) as [short|]; [|done].
    destruct (String.eqb_spec short ""); [done|]. intros ->. done.
  - destruct (ExtensionInfo.shortName item) as [short|].
    + destruct (String.eqb_spec short "") as [->|Hshort].
      * split; [intros ->; auto | by intros [-> _]].
      * split; [intros ->; done | intros [_ [[=]|[= ->]]]; done].
    + split; [intros ->; auto | by intros [-> _]].
Qed.

(** ** Rendering the list *)

Lemma renderExtensionState_maxIconSize (st st' : State) (li : Li) (item : ExtensionInfo.t) :
  maxIconSize st = maxIconSize st' ->
  renderExtensionState st li item = renderExtensionState st' li item.
Proof. intros Heq. unfold renderExtensionState, iconInfo. by rewrite Heq. Qed.

Lemma hidden_excludeType (st st' : State) (item : ExtensionInfo.t) :
  excludeType st = excludeType st' -> hidden st item = hidden st' item.
Proof. intros Heq. unfold hidden. by rewrite Heq. Qed.

Lemma hidden_false (st : State) (item : ExtensionInfo.t) :
  hidden st item = false <->
  ExtensionInfo.id item <> runtime_id /\ ExtensionInfo.type item ∉ excludeType st.
Proof.
  unfold hidden. rewrite orb_false_iff, String.eqb_neq, bool_decide_eq_false. done.
Qed.

Lemma hidden_true (st : State) (item : ExtensionInfo.t) :
  hidden st item = true <->
  ExtensionInfo.id item = runtime_id \/ ExtensionInfo.type item ∈ excludeType st.
Proof.
  unfold hidden. rewrite orb_true_iff, String.eqb_eq, bool_decide_eq_true. done.
Qed.

Lemma renderExtensions_item_eq (st : State) (frag : list Li) (item : ExtensionInfo.t) :
  renderExtensions_item (st, frag) item
  = if hidden st item then (st, frag)
    else (set_allExtIdMap (<[next_node st := item]> (allExtIdMap st))
            (set_next_node (S (next_node st)) st),
          frag ++ [renderExtensionState st (createLi (next_node st)) item]).
Proof. reflexivity. Qed.

(** The invariant of the [forEach] of [renderExtensions]: the fragment holds,
    in order, one fresh node for each item seen so far that is not hidden. *)
Lemma renderExtensions_loop (st0 : State) (items : list ExtensionInfo.t) :
  forall (st : State) (frag : list Li) (shown : list ExtensionInfo.t),
    excludeType st = excludeType st0 ->
    maxIconSize st = maxIconSize st0 ->
    Forall2 (rendered_for st0 st) frag shown ->
    NoDup (map li_node frag) ->
    let acc := foldl renderExtensions_item (st, frag) items in
    Forall2 (rendered_for st0 acc.1) acc.2
      (shown ++ List.filter (fun item => negb (hidden st0 item)) items)
    /\ NoDup (map li_node acc.2)
    /\ eidDisabledSet acc.1 = eidDisabledSet st
    /\ localStorage acc.1 = localStorage st
    /\ excludeType acc.1 = excludeType st.
Proof.
  induction items as [|item items IH]; intros st frag shown Hex Hmax Hfrag Hnd; simpl.
  - rewrite app_nil_r. done.
  - rewrite renderExtensions_item_eq, (hidden_excludeType st st0 item Hex).
    destruct (hidden st0 item); simpl; [by apply IH|].
    set (li := renderExtensionState st (createLi (next_node st)) item).
    set (st1 := set_allExtIdMap _ _).
    destruct (IH st1 (frag ++ [li]) (shown ++ [item])) as (H1 & H2 & H3 & H4 & H5);
      [done | done | | | ].
    + apply Forall2_app.
      * eapply Forall2_impl; [exact Hfrag|].
        intros li' item' (Hlt & Hlook & Hdraw). split_and!; simpl; [lia | | done].
        rewrite lookup_insert_ne; [done | lia].
      * constructor; [|constructor]. split_and!; simpl; [lia | apply lookup_insert_eq |].
        subst li. by apply renderExtensionState_maxIconSize.
    + rewrite map_app. apply NoDup_app. split_and!; [done | | apply NoDup_singleton].
      intros n Hn Hn'. apply list_elem_of_singleton in Hn'. simpl in Hn'. subst n.
      apply list_elem_of_fmap in Hn as (li' & Heq & Hli').
      apply list_elem_of_lookup in Hli' as [k Hk].
      destruct (Forall2_lookup_l _ _ _ _ _ Hfrag Hk) as (item' & _ & Hlt & _).
      lia.
    + rewrite <- app_assoc in H1. done.
Qed.

Lemma renderExtensions_callback_rendered (all : list ExtensionInfo.t) (st : State) :
  let st' := renderExtensions_callback all st in
  Forall2 (rendered_for st st') (ul_children st')
    (List.filter (fun item => negb (hidden st item)) (sortByASCII st all))
  /\ NoDup (map li_node (ul_children st')).
Proof.
  destruct (renderExtensions_loop st (sortByASCII st all) st [] [])
    as (H1 & H2 & _); [done | done | constructor | constructor |].
  unfold renderExtensions_callback. simpl. split; [|done].
  eapply Forall2_impl; [exact H1|]. intros li item (Hlt & Hlook & Hdraw). done.
Qed.

(** ** Bulk disable and bulk restore *)

Lemma oneKeyDisable_keep_true (st : State) (item : ExtensionInfo.t) :
  oneKeyDisable_keep st item = true <->
  ExtensionInfo.id item <> runtime_id
  /\ (ExtensionInfo.type item ∉ excludeType st)
  /\ ExtensionInfo.enabled item = true.
Proof.
  unfold oneKeyDisable_keep.
  rewrite !andb_true_iff, !negb_true_iff, String.eqb_neq, bool_decide_eq_false. logic.
Qed.

Lemma oneKeyDisable_filtered_In (st : State) (all : list ExtensionInfo.t)
    (item : ExtensionInfo.t) :
  In item (oneKeyDisable_filtered st all) <->
  In item all
  /\ ExtensionInfo.enabled item = true
  /\ ExtensionInfo.id item <> runtime_id
  /\ ExtensionInfo.type item ∉ excludeType st.
Proof.
  unfold oneKeyDisable_filtered. rewrite filter_In, oneKeyDisable_keep_true. logic.
Qed.

Lemma filter_sublist {A : Type} (f : A -> bool) (l : list A) : sublist (List.filter f l) l.
Proof.
  induction l as [|x l IH]; simpl; [constructor|].
  destruct (f x); by constructor.
Qed.

Lemma oneKeyDisable_loop_map (tailId : option string) (filtered : list ExtensionInfo.t) :
  oneKeyDisable_loop tailId filtered
  = map (fun item => management_setEnabled (ExtensionInfo.id item) false
                       (Some (DisableDone (ExtensionInfo.id item) tailId))) filtered.
Proof. induction filtered as [|item filtered IH]; simpl; by f_equal. Qed.

Lemma callbacks_oneKeyDisable_loop (tailId : option string)
    (filtered : list ExtensionInfo.t) :
  callbacks (oneKeyDisable_loop tailId filtered)
  = map (fun item => DisableDone (ExtensionInfo.id item) tailId) filtered.
Proof. induction filtered as [|item filtered IH]; simpl; by f_equal. Qed.

Lemma setEnabled_callback_set (item_id : string) (tailId : option string) (s : State) :
  eidDisabledSet (setEnabled_callback (DisableDone item_id tailId) s)
  = Set_add item_id (eidDisabledSet s).
Proof. simpl. by destruct (bool_decide _). Qed.

Lemma setEnabled_callback_tail (item_id : string) (s : State) :
  let s' := setEnabled_callback (DisableDone item_id (Some item_id)) s in
  localStorage s' !! deiKey = Some (Array_join comma (eidDisabledSet s'))
  /\ h1_textContent s' = getMessage "one_key_restore".
Proof.
  simpl. rewrite bool_decide_eq_true_2 by done. simpl.
  split; [apply lookup_insert_eq | done].
Qed.

Lemma fire_cons (cb : Callback) (cbs : list Callback) (s : State) :
  fire (cb :: cbs) s = fire cbs (setEnabled_callback cb s).
Proof. reflexivity. Qed.

Lemma fire_app (cbs cbs' : list Callback) (s : State) :
  fire (cbs ++ cbs') s = fire cbs' (fire cbs s).
Proof. apply foldl_app. Qed.

Lemma fire_set (tailId : option string) (filtered : list ExtensionInfo.t) (s : State)
    (id : string) :
  id ∈ eidDisabledSet
         (fire (map (fun item => DisableDone (ExtensionInfo.id item) tailId) filtered) s)
  <-> id ∈ eidDisabledSet s \/ In id (map ExtensionInfo.id filtered).
Proof.
  revert s. induction filtered as [|item filtered IH]; intros s.
  - simpl. logic.
  - rewrite !map_cons, fire_cons, IH, setEnabled_callback_set, Set_add_elem.
    simpl. split; [intros [[->|?]|?] | intros [?|[<-|?]]]; auto.
Qed.

Lemma fire_persists (filtered : list ExtensionInfo.t) (s : State) :
  filtered <> [] ->
  let s' := fire (map (fun item => DisableDone (ExtensionInfo.id item)
                                     (ExtensionInfo.id <$> last filtered)) filtered) s in
  localStorage s' !! deiKey = Some (Array_join comma (eidDisabledSet s'))
  /\ h1_textContent s' = getMessage "one_key_restore".
Proof.
  intros Hne.
  destruct (last filtered) as [item|] eqn:Hlast; [|by apply last_None in Hlast].
  pose proof Hlast as [front ->]%last_Some.
  rewrite map_app, fire_app. apply setEnabled_callback_tail.
Qed.

Lemma oneKeyRestore_pick_Some (st : State) (item : ExtensionInfo.t) (id : string) :
  oneKeyRestore_pick st item = Some id <->
  ExtensionInfo.id item = id
  /\ id <> runtime_id
  /\ (ExtensionInfo.type item ∉ excludeType st)
  /\ ExtensionInfo.enabled item = false.
Proof.
  unfold oneKeyRestore_pick.
  destruct (String.eqb_spec (ExtensionInfo.id item) runtime_id) as [Hself|Hself];
    destruct (decide (ExtensionInfo.type item ∈ excludeType st)) as [Hex|Hex];
    [rewrite (bool_decide_eq_true_2 _ Hex) | rewrite (bool_decide_eq_false_2 _ Hex)
     | rewrite (bool_decide_eq_true_2 _ Hex) | rewrite (bool_decide_eq_false_2 _ Hex)];
    destruct (ExtensionInfo.enabled item); simpl;
    split; try discriminate; try (intros (<- & ? & ? & ?); done).
  intros [= <-]. done.
Qed.

Lemma oneKeyRestore_disabledExisting_elem (st : State) (all : list ExtensionInfo.t)
    (id : string) :
  Some id ∈ oneKeyRestore_disabledExisting st all <->
  exists item, In item all /\ oneKeyRestore_pick st item = Some id.
Proof.
  unfold oneKeyRestore_disabledExisting.
  rewrite elem_of_list_to_set, list_elem_of_In, in_map_iff.
  split; intros (item & H1 & H2); exists item; done.
Qed.

Lemma oneKeyRestore_loop_filter (existing : gset (option string)) (recent : list string) :
  oneKeyRestore_loop existing recent
  = map (fun id => management_setEnabled id true None)
      (List.filter (fun id => bool_decide (Some id ∈ existing)) recent).
Proof.
  induction recent as [|id recent IH]; simpl; [done|].
  destruct (bool_decide _); simpl; by rewrite IH.
Qed.

Lemma fire_eidDisabledSet (tailId : option string) (items : list ExtensionInfo.t)
    (s : State) :
  eidDisabledSet (fire (map (fun item => DisableDone (ExtensionInfo.id item) tailId) items) s)
  = foldl (fun set id => Set_add id set) (eidDisabledSet s) (map ExtensionInfo.id items).
Proof.
  revert s. induction items as [|item items IH]; intros s; [done|].
  rewrite !map_cons, fire_cons, IH, setEnabled_callback_set. done.
Qed.

Lemma Array_join_comma_separated (ids : list string) :
  comma_separated ids (Array_join comma ids).
Proof.
  induction ids as [|id [|other ids] IH]; [constructor | constructor |].
  change (Array_join comma (id :: other :: ids))
    with (id +:+ "," +:+ Array_join comma (other :: ids)).
  by constructor.
Qed.

Lemma writeToLocal_persisted (st : State) :
  persisted (eidDisabledSet (writeToLocal st)) (writeToLocal st).
Proof.
  exists (Array_join comma (eidDisabledSet st)). split_and!.
  - apply writeToLocal_lookup.
  - apply Array_join_comma_separated.
  - intros Hfree Hne. by apply String_split_join.
Qed.

Lemma setEnabled_callback_tail_persisted (item_id : string) (s : State) :
  let s' := setEnabled_callback (DisableDone item_id (Some item_id)) s in
  persisted (eidDisabledSet s') s'.
Proof.
  simpl. rewrite bool_decide_eq_true_2 by done.
  apply (writeToLocal_persisted (set_eidDisabledSet (Set_add item_id (eidDisabledSet s)) s)).
Qed.

Lemma fire_persisted (filtered : list ExtensionInfo.t) (s : State) :
  filtered <> [] ->
  let s' := fire (map (fun item => DisableDone (ExtensionInfo.id item)
                                     (ExtensionInfo.id <$> last filtered)) filtered) s in
  persisted (eidDisabledSet s') s'.
Proof.
  intros Hne.
  destruct (last filtered) as [item|] eqn:Hlast; [|by apply last_None in Hlast].
  pose proof Hlast as [front ->]%last_Some.
  rewrite map_app, fire_app. apply setEnabled_callback_tail_persisted.
Qed.

(** C1: bulk disable leaves the popup as it is and issues one disable
    request for each record that is enabled, is not the hosting extension
    and is not of an excluded type, in the order of the list.  The callback
    of a request adds the identifier of its record to the disabled-by-us
    set.  The callback of the last record of the filtered list moreover
    persists the set and writes the "one_key_restore" message in the header;
    so, once the callbacks have fired in the order of issuance, the set holds
    the identifiers of all the filtered records, is persisted, and the header
    reads "one_key_restore".  Persisted means that the storage holds, under
    the key, the identifiers of the set in order with commas between them. *)
Theorem oneKeyDisable_requests (st : State) (all : list ExtensionInfo.t) :
  let filtered := oneKeyDisable_filtered st all in
  let tailId := ExtensionInfo.id <$> last filtered in
  let issued := oneKeyDisable_callback all st in
  (forall item, In item filtered <->
                In item all
                /\ ExtensionInfo.enabled item = true
                /\ ExtensionInfo.id item <> runtime_id
                /\ (ExtensionInfo.type item ∉ excludeType st))
  /\ sublist filtered all
  /\ issued.1 = st
  /\ issued.2 = map (fun item => management_setEnabled (ExtensionInfo.id item) false
                                   (Some (DisableDone (ExtensionInfo.id item) tailId)))
                  filtered
  /\ (forall item s,
        eidDisabledSet (setEnabled_callback (DisableDone (ExtensionInfo.id item) tailId) s)
        = Set_add (ExtensionInfo.id item) (eidDisabledSet s)
        /\ ExtensionInfo.id item
           ∈ eidDisabledSet (setEnabled_callback (DisableDone (ExtensionInfo.id item) tailId) s))
  /\ (forall item s,
        last filtered = Some item ->
        let s' := setEnabled_callback (DisableDone (ExtensionInfo.id item) tailId) s in
        localStorage s' !! deiKey = Some (Array_join comma (eidDisabledSet s'))
        /\ persisted (eidDisabledSet s') s'
        /\ h1_textContent s' = getMessage "one_key_restore")
  /\ (forall s,
        filtered <> [] ->
        let s' := fire (callbacks issued.2) s in
        (forall id, id ∈ eidDisabledSet s' <->
                    id ∈ eidDisabledSet s \/ In id (map ExtensionInfo.id filtered))
        /\ eidDisabledSet s'
           = foldl (fun set id => Set_add id set) (eidDisabledSet s)
               (map ExtensionInfo.id filtered)
        /\ localStorage s' !! deiKey = Some (Array_join comma (eidDisabledSet s'))
        /\ persisted (eidDisabledSet s') s'
        /\ h1_textContent s' = getMessage "one_key_restore").
Proof.
  intros filtered tailId issued. split_and!.
  - intros item. apply oneKeyDisable_filtered_In.
  - apply filter_sublist.
  - done.
  - apply oneKeyDisable_loop_map.
  - intros item s. rewrite setEnabled_callback_set. split; [done|].
    apply Set_add_elem. by left.
  - intros item s Hlast. subst tailId. rewrite Hlast.
    pose proof (setEnabled_callback_tail (ExtensionInfo.id item) s) as [Hstored Hheader].
    pose proof (setEnabled_callback_tail_persisted (ExtensionInfo.id item) s) as Hpinned.
    done.
  - intros s Hne. subst issued. unfold oneKeyDisable_callback. simpl.
    fold filtered. fold tailId. rewrite callbacks_oneKeyDisable_loop.
    pose proof (fire_persists filtered s Hne) as [Hstored Hheader].
    pose proof (fire_persisted filtered s Hne) as Hpinned.
    split_and!; [intros id; apply fire_set | apply fire_eidDisabledSet | done | done | done].
Qed.

(** C7: when no record of the list is enabled once the hosting extension and
    the excluded types are set aside, bulk disable issues no request and
    leaves the whole state as it is: the disabled-by-us set, the local
    storage and the header; no callback is left to fire. *)
Theorem oneKeyDisable_nothing_enabled (st : State) (all : list ExtensionInfo.t) :
  (forall item, In item all ->
                ExtensionInfo.id item <> runtime_id ->
                ExtensionInfo.type item ∉ excludeType st ->
                ExtensionInfo.enabled item = false) ->
  oneKeyDisable_callback all st = (st, [])
  /\ callbacks (oneKeyDisable_callback all st).2 = [].
Proof.
  intros Hnone.
  assert (oneKeyDisable_filtered st all = []) as Hempty.
  { destruct (oneKeyDisable_filtered st all) as [|item rest] eqn:Hf; [done|].
    assert (In item (oneKeyDisable_filtered st all)) as Hin by (rewrite Hf; by left).
    apply oneKeyDisable_filtered_In in Hin as (Hin & Hen & Hself & Hex).
    rewrite (Hnone item Hin Hself Hex) in Hen. discriminate. }
  unfold oneKeyDisable_callback. rewrite Hempty. done.
Qed.

(** C2: bulk restore issues one enable request for each identifier of the
    disabled-by-us set that belongs to a record of the list that is
    disabled, is not the hosting extension and is not of an excluded type,
    and nothing else; whatever was requested, the set ends empty, the empty
    set is what the storage holds (and what a later load reads), and the
    header reads "one_key_disable". *)
Theorem oneKeyRestore_requests (st : State) (all : list ExtensionInfo.t) :
  let restored := oneKeyRestore_callback all st in
  restored.2
  = map (fun id => management_setEnabled id true None)
      (List.filter
         (fun id => bool_decide (Some id ∈ oneKeyRestore_disabledExisting st all))
         (eidDisabledSet st))
  /\ (forall id,
        In (management_setEnabled id true None) restored.2 <->
        id ∈ eidDisabledSet st
        /\ exists item, In item all
                        /\ ExtensionInfo.id item = id
                        /\ ExtensionInfo.enabled item = false
                        /\ id <> runtime_id
                        /\ (ExtensionInfo.type item ∉ excludeType st))
  /\ (forall call, In call restored.2 -> exists id, call = management_setEnabled id true None)
  /\ eidDisabledSet restored.1 = []
  /\ localStorage restored.1 !! deiKey = Some ""
  /\ eidDisabledSet (readFromLocal restored.1) = []
  /\ h1_textContent restored.1 = getMessage "one_key_disable".
Proof.
  intros restored.
  assert (restored.2
          = map (fun id => management_setEnabled id true None)
              (List.filter
                 (fun id => bool_decide (Some id ∈ oneKeyRestore_disabledExisting st all))
                 (eidDisabledSet st))) as Hcalls.
  { apply oneKeyRestore_loop_filter. }
  split_and!.
  - exact Hcalls.
  - intros id. rewrite Hcalls, in_map_iff. split.
    + intros (id' & [= ->] & Hin). apply filter_In in Hin as [Hin Hex].
      apply bool_decide_eq_true in Hex.
      apply oneKeyRestore_disabledExisting_elem in Hex as (item & Hitem & Hpick).
      apply oneKeyRestore_pick_Some in Hpick as (? & ? & ? & ?).
      split; [by apply list_elem_of_In|]. exists item. done.
    + intros (Hin & item & Hitem & Hid & Hoff & Hself & Hex).
      exists id. split; [done|]. apply filter_In. split; [by apply list_elem_of_In|].
      apply bool_decide_eq_true, oneKeyRestore_disabledExisting_elem.
      exists item. split; [done|]. by apply oneKeyRestore_pick_Some.
  - intros call. rewrite Hcalls, in_map_iff. intros (id & <- & _). by exists id.
  - done.
  - simpl. apply lookup_insert_eq.
  - unfold readFromLocal. simpl. rewrite lookup_insert_eq. done.
  - done.
Qed.

(** C8: an activation of the header, by a click or by Enter while it has the
    focus, invokes exactly one bulk operation: bulk restore when the
    disabled-by-us set is not empty, bulk disable when it is empty. *)
Theorem header_activation (st : State) :
  handle (Click H1) st = h1_click st
  /\ handle (KeyUp "Enter" H1) st = h1_click st
  /\ h1_click st
     = (st, [management_getAll
               (if bool_decide (eidDisabledSet st = []) then OneKeyDisable else OneKeyRestore)])
  /\ (eidDisabledSet st <> [] -> h1_click st = oneKeyRestore st)
  /\ (eidDisabledSet st = [] -> h1_click st = oneKeyDisable st)
  /\ (forall all s,
        getAll_callback OneKeyRestore all s = oneKeyRestore_callback all s
        /\ getAll_callback OneKeyDisable all s = oneKeyDisable_callback all s).
Proof.
  unfold h1_click. split_and!; try done.
  - by destruct (eidDisabledSet st).
  - by destruct (eidDisabledSet st).
  - by intros ->.
Qed.

(** C5: the hosting extension and the records of an excluded type are
    hidden from all three operations.  The rendered items are, in order, the
    records of the sorted list that are neither; each is tied to such a
    record.  The records bulk disable filters, the identifiers bulk restore
    looks for, and the requests both issue come from such records only; a
    hidden record contributes nothing. *)
Theorem hidden_never_shown (st : State) (all : list ExtensionInfo.t) :
  let st' := renderExtensions_callback all st in
  Forall2 (fun li item => allExtIdMap st' !! li_node li = Some item)
    (ul_children st')
    (List.filter (fun item => negb (hidden st item)) (sortByASCII st all))
  /\ (forall li, In li (ul_children st') ->
        exists item, allExtIdMap st' !! li_node li = Some item
                     /\ In item all
                     /\ ExtensionInfo.id item <> runtime_id
                     /\ (ExtensionInfo.type item ∉ excludeType st))
  /\ (forall item, In item (oneKeyDisable_filtered st all) ->
        In item all
        /\ ExtensionInfo.id item <> runtime_id
        /\ (ExtensionInfo.type item ∉ excludeType st))
  /\ (forall call, In call (oneKeyDisable_callback all st).2 ->
        exists item cb, call = management_setEnabled (ExtensionInfo.id item) false cb
                        /\ In item all
                        /\ ExtensionInfo.id item <> runtime_id
                        /\ (ExtensionInfo.type item ∉ excludeType st))
  /\ (forall id, Some id ∈ oneKeyRestore_disabledExisting st all ->
        id <> runtime_id
        /\ exists item, In item all
                        /\ ExtensionInfo.id item = id
                        /\ (ExtensionInfo.type item ∉ excludeType st))
  /\ (forall call, In call (oneKeyRestore_callback all st).2 ->
        exists item, call = management_setEnabled (ExtensionInfo.id item) true None
                     /\ In item all
                     /\ ExtensionInfo.id item <> runtime_id
                     /\ (ExtensionInfo.type item ∉ excludeType st))
  /\ (forall item,
        ExtensionInfo.id item = runtime_id \/ ExtensionInfo.type item ∈ excludeType st ->
        hidden st item = true
        /\ oneKeyDisable_keep st item = false
        /\ oneKeyRestore_pick st item = None).
Proof.
  intros st'.
  destruct (renderExtensions_callback_rendered all st) as [Hrendered _].
  fold st' in Hrendered. split_and!.
  - eapply Forall2_impl; [exact Hrendered|]. by intros li item (_ & Hlook & _).
  - intros li Hli. apply list_elem_of_In, list_elem_of_lookup in Hli as [k Hk].
    destruct (Forall2_lookup_l _ _ _ _ _ Hrendered Hk) as (item & Hitem & _ & Hlook & _).
    exists item. split; [done|].
    apply list_elem_of_lookup_2, list_elem_of_In, filter_In in Hitem as [Hin Hshown].
    apply negb_true_iff, hidden_false in Hshown.
    split; [|done].
    apply list_elem_of_In. rewrite <- (sortByASCII_Permutation st all).
    by apply list_elem_of_In.
  - intros item Hin. apply oneKeyDisable_filtered_In in Hin. logic.
  - intros call. unfold oneKeyDisable_callback. simpl.
    rewrite oneKeyDisable_loop_map, in_map_iff.
    intros (item & <- & Hin). apply oneKeyDisable_filtered_In in Hin.
    eexists item, _. split; [done|]. logic.
  - intros id Hid.
    apply oneKeyRestore_disabledExisting_elem in Hid as (item & Hin & Hpick).
    apply oneKeyRestore_pick_Some in Hpick as (? & ? & ? & ?).
    split; [done|]. by exists item.
  - intros call. unfold oneKeyRestore_callback. simpl.
    rewrite oneKeyRestore_loop_filter, in_map_iff.
    intros (id & <- & Hin). apply filter_In in Hin as [_ Hid].
    apply bool_decide_eq_true, oneKeyRestore_disabledExisting_elem in Hid
      as (item & Hin & Hpick).
    apply oneKeyRestore_pick_Some in Hpick as (<- & ? & ? & ?).
    by exists item.
  - intros item Hhidden. split_and!.
    + by apply hidden_true.
    + apply not_true_is_false. rewrite oneKeyDisable_keep_true. logic.
    + destruct (oneKeyRestore_pick st item) as [id|] eqn:Hpick; [|done].
      apply oneKeyRestore_pick_Some in Hpick as (<- & ? & ? & ?). logic.
Qed.

(** ** Keyboard focus *)

Lemma findIndex_lookup (els : list Element) (active : Element) (i : nat) :
  NoDup els -> els !! i = Some active ->
  findIndex (fun element => bool_decide (element = active)) els = Z.of_nat i.
Proof.
  revert i. induction els as [|el els IH]; intros i Hnd Hi; [done|].
  apply NoDup_cons in Hnd as [Hfresh Hnd]. simpl.
  destruct i as [|i]; simpl in Hi.
  - injection Hi as ->. by rewrite bool_decide_eq_true_2.
  - rewrite bool_decide_eq_false_2.
    + rewrite (IH i Hnd Hi). destruct (Z.ltb_spec (Z.of_nat i) 0); lia.
    + intros ->. apply Hfresh. by eapply list_elem_of_lookup_2.
Qed.

Lemma Array_get_lookup {A : Type} (l : list A) (k : Z) :
  0 <= k -> Array_get l k = l !! Z.to_nat k.
Proof. intros Hk. unfold Array_get. destruct (Z.ltb_spec k 0); [lia | done]. Qed.

Lemma activeElement_set_activeElement (el : Element) (st : State) :
  attached st = true -> activeElement (set_activeElement el st) = el.
Proof. intros Hatt. unfold activeElement. simpl. by rewrite Hatt. Qed.

Lemma focus_lookup (els : list Element) (k : Z) (st : State) :
  attached st = true ->
  0 <= k < Z.of_nat (length els) ->
  els !! Z.to_nat k = Some (activeElement (focus (Array_get els k) st)).
Proof.
  intros Hatt Hk. rewrite Array_get_lookup by lia.
  destruct (lookup_lt_is_Some_2 els (Z.to_nat k)) as [el Hel]; [lia|].
  rewrite Hel. unfold focus. rewrite Hatt.
  by rewrite activeElement_set_activeElement.
Qed.

(** The body is not in the sequence: when the focus is on an element of the
    sequence, the header and the list are in the document. *)
Lemma clickableElements_attached (st : State) (i : nat) :
  clickableElements st !! i = Some (activeElement st) -> attached st = true.
Proof.
  unfold activeElement. destruct (attached st); [done|]. intros Hi.
  apply list_elem_of_lookup_2 in Hi. unfold clickableElements in Hi. simpl in Hi.
  apply elem_of_cons in Hi as [[=]|Hi].
  apply list_elem_of_fmap in Hi as (li & [=] & _).
Qed.

Lemma clickableElements_length (st : State) :
  0 < Z.of_nat (length (clickableElements st)).
Proof. unfold clickableElements. simpl. lia. Qed.

Lemma focusClickableElement_forward (st : State) (i : nat) :
  let els := clickableElements st in
  NoDup els -> els !! i = Some (activeElement st) ->
  els !! Z.to_nat ((Z.of_nat i + 1) mod Z.of_nat (length els))
  = Some (activeElement (focusClickableElement 1 st)).
Proof.
  intros els Hnd Hi. unfold focusClickableElement. fold els.
  pose proof (clickableElements_length st) as Hlen. fold els in Hlen.
  rewrite (findIndex_lookup els _ i Hnd Hi). simpl (1 =? 1).
  unfold js_rem. rewrite Z.rem_mod_nonneg by lia.
  apply focus_lookup; [by apply (clickableElements_attached st i)|].
  by apply Z.mod_pos_bound.
Qed.

Lemma focusClickableElement_backward (st : State) (i : nat) :
  let els := clickableElements st in
  NoDup els -> els !! i = Some (activeElement st) ->
  els !! Z.to_nat ((Z.of_nat i - 1) mod Z.of_nat (length els))
  = Some (activeElement (focusClickableElement (-1) st)).
Proof.
  intros els Hnd Hi. unfold focusClickableElement. fold els.
  pose proof (clickableElements_length st) as Hlen. fold els in Hlen.
  rewrite (findIndex_lookup els _ i Hnd Hi). simpl (-1 =? 1). simpl (-1 =? -1).
  unfold js_rem. rewrite Z.rem_mod_nonneg by lia.
  replace (Z.of_nat i `max` 0 + -1 + Z.of_nat (length els))
    with (Z.of_nat i - 1 + 1 * Z.of_nat (length els)) by lia.
  rewrite Z_mod_plus_full.
  apply focus_lookup; [by apply (clickableElements_attached st i)|].
  by apply Z.mod_pos_bound.
Qed.

(** C9: with the focus on position [i] of the sequence made of the header
    and the rendered items, Tab and ArrowDown focus position [(i + 1) mod n],
    Shift+Tab and ArrowUp focus position [(i - 1) mod n]; forward from the
    last item goes to the header, backward from the header goes to the last
    item. *)
Theorem focus_moves_circularly (st : State) (i : nat) :
  let els := clickableElements st in
  let n := Z.of_nat (length els) in
  NoDup els ->
  els !! i = Some (activeElement st) ->
  els !! Z.to_nat ((Z.of_nat i + 1) mod n) = Some (activeElement (keydown "Tab" false st))
  /\ (forall shiftKey,
        els !! Z.to_nat ((Z.of_nat i + 1) mod n)
        = Some (activeElement (keydown "ArrowDown" shiftKey st)))
  /\ els !! Z.to_nat ((Z.of_nat i - 1) mod n) = Some (activeElement (keydown "Tab" true st))
  /\ (forall shiftKey,
        els !! Z.to_nat ((Z.of_nat i - 1) mod n)
        = Some (activeElement (keydown "ArrowUp" shiftKey st)))
  /\ (S i = length els -> activeElement (keydown "Tab" false st) = H1)
  /\ (i = 0%nat -> Some (activeElement (keydown "Tab" true st)) = last els).
Proof.
  intros els n Hnd Hi.
  pose proof (focusClickableElement_forward st i Hnd Hi) as Hfwd.
  pose proof (focusClickableElement_backward st i Hnd Hi) as Hbwd.
  fold els in Hfwd, Hbwd. fold n in Hfwd, Hbwd.
  assert (0 < n) as Hn by apply clickableElements_length.
  split_and!.
  - exact Hfwd.
  - intros shiftKey. exact Hfwd.
  - exact Hbwd.
  - intros shiftKey. exact Hbwd.
  - intros Hlast. change (keydown "Tab" false st) with (focusClickableElement 1 st).
    replace ((Z.of_nat i + 1) mod n) with 0 in Hfwd.
    + by injection Hfwd as <-.
    + replace (Z.of_nat i + 1) with n by lia. by rewrite Z.mod_same by lia.
  - intros ->. change (keydown "Tab" true st) with (focusClickableElement (-1) st).
    rewrite <- Hbwd, last_lookup. f_equal.
    replace (Z.of_nat 0 - 1) with (n - 1 + (-1) * n) by lia.
    rewrite Z_mod_plus_full, Z.mod_small by lia. lia.
Qed.


(** ** More on persistence *)

Lemma set_eidDisabledSet_same (st : State) : set_eidDisabledSet (eidDisabledSet st) st = st.
Proof. by destruct st. Qed.

Lemma String_split_not_nil (sep : Ascii.ascii) (s : string) : String_split sep s <> [].
Proof.
  destruct s as [|c s]; simpl; [done|].
  destruct (Ascii.eqb c sep); [done|]. by destruct (String_split sep s).
Qed.

Lemma Array_join_cons_String (c : Ascii.ascii) (x : string) (rest : list string) :
  Array_join comma (String c x :: rest) = String c (Array_join comma (x :: rest)).
Proof. by destruct rest. Qed.

Lemma Array_join_split (s : string) : Array_join comma (String_split comma s) = s.
Proof.
  induction s as [|c s IH]; [done|]. simpl.
  destruct (Ascii.eqb_spec c comma) as [->|Hc].
  - pose proof (String_split_not_nil comma s) as Hne.
    destruct (String_split comma s) as [|piece pieces]; [done|].
    change (Array_join comma ("" :: piece :: pieces))
      with (String comma (Array_join comma (piece :: pieces))).
    by rewrite IH.
  - pose proof (String_split_not_nil comma s) as Hne.
    destruct (String_split comma s) as [|piece pieces]; [done|].
    by rewrite Array_join_cons_String, IH.
Qed.

Lemma foldl_Set_add_keeps_NoDup (l s : list string) :
  NoDup s -> NoDup (foldl (fun s id => Set_add id s) s l).
Proof.
  revert s. induction l as [|x l IH]; intros s Hs; simpl; [done|].
  by apply IH, Set_add_NoDup.
Qed.

Lemma foldl_Set_add_known (l s : list string) :
  Forall (fun x => x ∈ s) l -> foldl (fun s id => Set_add id s) s l = s.
Proof.
  induction 1 as [|x l Hx _ IH]; simpl; [done|]. by rewrite Set_add_known.
Qed.

Lemma foldl_Set_add_prefix (l s : list string) :
  s `prefix_of` foldl (fun s id => Set_add id s) s l.
Proof.
  revert s. induction l as [|x l IH]; intros s; simpl; [done|].
  etrans; [|apply IH].
  destruct (decide (x ∈ s)).
  - by rewrite Set_add_known.
  - rewrite Set_add_fresh by done. by apply prefix_app_r.
Qed.

(** The identifiers [readFromLocal] reads from the storage. *)
Lemma readFromLocal_eq (st : State) :
  readFromLocal st
  = set_eidDisabledSet
      (foldl (fun s id => Set_add id s) (eidDisabledSet st)
         (match localStorage st !! deiKey with
          | Some data => if String.eqb data "" then [] else String_split comma data
          | None => []
          end)) st.
Proof.
  unfold readFromLocal. destruct (localStorage st !! deiKey) as [data|]; simpl; [|done].
  by destruct (String.eqb data "").
Qed.

(** X1: when the storage has no value under the key, or the empty string,
    loading changes nothing. *)
Theorem readFromLocal_nothing_stored (st : State) :
  localStorage st !! deiKey = None \/ localStorage st !! deiKey = Some "" ->
  readFromLocal st = st.
Proof.
  intros Hdata. rewrite readFromLocal_eq.
  destruct Hdata as [-> | ->]; simpl; apply set_eidDisabledSet_same.
Qed.

(** X2: loading only adds.  The identifiers held before stay, in their
    order and at the front; the set afterwards holds them and the pieces of a
    non-empty stored string, nothing else, and no identifier twice. *)
Theorem readFromLocal_members (st : State) :
  eidDisabledSet st `prefix_of` eidDisabledSet (readFromLocal st)
  /\ (forall id,
        id ∈ eidDisabledSet (readFromLocal st) <->
        id ∈ eidDisabledSet st
        \/ exists data, localStorage st !! deiKey = Some data
                        /\ data <> ""
                        /\ id ∈ String_split comma data)
  /\ (NoDup (eidDisabledSet st) -> NoDup (eidDisabledSet (readFromLocal st))).
Proof.
  rewrite readFromLocal_eq. simpl. split_and!.
  - apply foldl_Set_add_prefix.
  - intros id. rewrite foldl_Set_add_elem.
    destruct (localStorage st !! deiKey) as [data|].
    + destruct (String.eqb_spec data "") as [->|Hdata].
      * rewrite elem_of_nil. split; [intros [?|[]]; by left|].
        intros [?|(data & [= <-] & Hne & _)]; [by left | done].
      * split; [intros [?|?]; [by left | right; by exists data]|].
        intros [?|(data' & [= <-] & _ & Hin)]; [by left | by right].
    + rewrite elem_of_nil. split; [intros [?|[]]; by left|].
      intros [?|(data & Hdata & _)]; [by left | done].
  - apply foldl_Set_add_keeps_NoDup.
Qed.

(** X3: loading twice is loading once. *)
Theorem readFromLocal_idempotent (st : State) :
  readFromLocal (readFromLocal st) = readFromLocal st.
Proof.
  rewrite (readFromLocal_eq st).
  set (pieces := match localStorage st !! deiKey with
                 | Some data => if String.eqb data "" then [] else String_split comma data
                 | None => []
                 end).
  rewrite readFromLocal_eq. simpl. fold pieces.
  rewrite foldl_Set_add_known; [done|].
  apply Forall_forall. intros id Hid. apply foldl_Set_add_elem. by right.
Qed.

(** X4: saving writes one key.  The values under the other keys stay, the
    rest of the state stays, and saving twice is saving once. *)
Theorem writeToLocal_frame (st : State) :
  (forall key, key <> deiKey ->
               localStorage (writeToLocal st) !! key = localStorage st !! key)
  /\ set_localStorage (localStorage st) (writeToLocal st) = st
  /\ writeToLocal (writeToLocal st) = writeToLocal st.
Proof.
  split_and!.
  - intros key Hkey. unfold writeToLocal. simpl. by rewrite lookup_insert_ne.
  - by destruct st.
  - unfold writeToLocal. simpl. by rewrite insert_insert_eq.
Qed.

(** X5: a set of comma-free identifiers that has just been saved is left as
    it is by a load into the same in-memory set. *)
Theorem writeToLocal_readFromLocal (st : State) :
  Forall (fun id => comma_free id = true) (eidDisabledSet st) ->
  readFromLocal (writeToLocal st) = writeToLocal st.
Proof.
  intros Hfree. rewrite readFromLocal_eq, writeToLocal_lookup.
  rewrite writeToLocal_eidDisabledSet.
  rewrite foldl_Set_add_known.
  - rewrite <- (writeToLocal_eidDisabledSet st). apply set_eidDisabledSet_same.
  - destruct (String.eqb_spec (Array_join comma (eidDisabledSet st)) "") as [_|Hfull];
      [constructor|].
    rewrite String_split_join; [by apply Forall_forall | | done].
    intros Hnil. by rewrite Hnil in Hfull.
Qed.

(** X6: a stored string whose pieces are all different is written back
    unchanged when it is loaded into an empty set and saved again. *)
Theorem readFromLocal_writeToLocal (st : State) (data : string) :
  eidDisabledSet st = [] ->
  localStorage st !! deiKey = Some data ->
  NoDup (String_split comma data) ->
  localStorage (writeToLocal (readFromLocal st)) = localStorage st.
Proof.
  intros Hempty Hdata Hnd. rewrite readFromLocal_eq, Hdata, Hempty.
  unfold writeToLocal. simpl. apply insert_id. rewrite Hdata. f_equal.
  destruct (String.eqb_spec data "") as [->|Hfull]; [done|].
  rewrite (foldl_Set_add_NoDup _ []) by done. simpl. by rewrite Array_join_split.
Qed.


(** ** Start-up *)

Lemma main_excludeType_loop (entries : list (string * bool)) (acc : gset string)
    (type : string) :
  type ∈ foldl (fun (excludeType : gset string) (entry : string * bool) =>
                  if negb entry.2 then {[entry.1]} ∪ excludeType else excludeType)
               acc entries
  <-> type ∈ acc \/ (type, false) ∈ entries.
Proof.
  revert acc. induction entries as [|[key checked] entries IH]; intros acc; simpl.
  - rewrite elem_of_nil. logic.
  - rewrite IH, elem_of_cons. destruct checked; simpl.
    + split; [intros [?|?]; auto | intros [?|[[=]|?]]; auto].
    + rewrite elem_of_union, elem_of_singleton.
      split; [intros [[->|?]|?]; auto | intros [?|[[= ->]|?]]; auto].
Qed.

(** X7: at start-up a type is excluded exactly when its flag is false, the
    stored flag if there is one for the type and the default flag otherwise;
    the popup then loads the saved identifiers and asks for the list of
    extensions once, to render it. *)
Theorem main_excludes_unchecked (stored : option (gmap string bool))
    (ls : gmap string string) (type : string) :
  (type ∈ excludeType (main stored ls).1 <->
   match stored ≫= (fun flags => flags !! type) with
   | Some checked => checked = false
   | None => eTypeChecked !! type = Some false
   end)
  /\ (main stored ls).2 = [management_getAll RenderExtensions]
  /\ (main stored ls).1 = readFromLocal (constructor (main_excludeType stored) ls).
Proof.
  split; [|done]. simpl. unfold main_excludeType.
  rewrite main_excludeType_loop, elem_of_map_to_list.
  destruct stored as [flags|]; simpl.
  - rewrite lookup_union_Some_raw.
    destruct (flags !! type) as [checked|].
    + split; [intros [[]%not_elem_of_empty|[[= ->]|[[=] _]]]; done|].
      intros ->. right. by left.
    + split; [intros [[]%not_elem_of_empty|[[=]|[_ ?]]]; done|].
      intros Hdefault. right. by right.
  - split; [intros [[]%not_elem_of_empty|?]; done | by right].
Qed.


(** ** More on rendering *)

Lemma filter_length_Permutation {A : Type} (f : A -> bool) (l l' : list A) :
  l ≡ₚ l' -> length (List.filter f l) = length (List.filter f l').
Proof.
  induction 1 as [|x l l' _ IH|x y l|l l' l'' _ IH _ IH']; simpl.
  - done.
  - destruct (f x); simpl; by rewrite IH.
  - by destruct (f x), (f y).
  - by rewrite IH.
Qed.

(** What the [forEach] of [renderExtensions] changes in the state: the
    association and the supply of nodes, and these only by adding. *)
Lemma renderExtensions_loop_frame (items : list ExtensionInfo.t) :
  forall (st : State) (frag : list Li),
    let acc := foldl renderExtensions_item (st, frag) items in
    acc.1 = set_allExtIdMap (allExtIdMap acc.1) (set_next_node (next_node acc.1) st)
    /\ (next_node st <= next_node acc.1)%nat
    /\ (forall n, (n < next_node st)%nat -> allExtIdMap acc.1 !! n = allExtIdMap st !! n)
    /\ (forall lo, (lo <= next_node st)%nat ->
                   Forall (fun li => (lo <= li_node li < next_node st)%nat) frag ->
                   Forall (fun li => (lo <= li_node li < next_node acc.1)%nat) acc.2).
Proof.
  induction items as [|item items IH]; intros st frag; simpl.
  - split_and!; [by destruct st | done | done | done].
  - rewrite renderExtensions_item_eq. destruct (hidden st item); [apply IH|].
    set (st1 := set_allExtIdMap _ _).
    set (frag1 := frag ++ _).
    destruct (IH st1 frag1) as (Hframe & Hnext & Hold & Hnodes).
    split_and!.
    + etrans; [exact Hframe|]. done.
    + simpl in Hnext. lia.
    + intros n Hn. rewrite Hold by (simpl; lia). simpl.
      rewrite lookup_insert_ne; [done | lia].
    + intros lo Hlo Hfrag. apply Hnodes; [simpl; lia|].
      apply Forall_app. split.
      * eapply Forall_impl; [exact Hfrag|]. simpl. intros li Hli. lia.
      * constructor; [simpl; lia | constructor].
Qed.

Lemma renderExtensions_callback_frame (all : list ExtensionInfo.t) (st : State) :
  let st' := renderExtensions_callback all st in
  eidDisabledSet st' = eidDisabledSet st
  /\ localStorage st' = localStorage st
  /\ excludeType st' = excludeType st
  /\ partition st' = partition st
  /\ maxIconSize st' = maxIconSize st.
Proof.
  destruct (renderExtensions_loop_frame (sortByASCII st all) st []) as (Hframe & _).
  unfold renderExtensions_callback. simpl. rewrite Hframe. done.
Qed.

(** X8: rendering writes in the header the "one_key_restore" message when
    the disabled-by-us set holds an identifier and the "one_key_disable"
    message when it is empty, leaves the set and the storage alone, takes the
    focus off the list, and draws one item for each record that is neither
    the hosting extension nor of an excluded type. *)
Theorem renderExtensions_callback_header (all : list ExtensionInfo.t) (st : State) :
  let st' := renderExtensions_callback all st in
  h1_textContent st'
  = getMessage (if bool_decide (eidDisabledSet st = [])
                then "one_key_disable" else "one_key_restore")
  /\ eidDisabledSet st' = eidDisabledSet st
  /\ localStorage st' = localStorage st
  /\ activeElement st' = Body
  /\ length (ul_children st')
     = length (List.filter (fun item => negb (hidden st item)) all).
Proof.
  intros st'.
  destruct (renderExtensions_callback_frame all st) as (Hset & Hls & _).
  destruct (renderExtensions_callback_rendered all st) as [Hrendered _].
  fold st' in Hset, Hls, Hrendered. split_and!; [|done|done|done|].
  - subst st'. unfold renderExtensions_callback. simpl.
    destruct (renderExtensions_loop_frame (sortByASCII st all) st []) as (Hframe & _).
    rewrite Hframe. simpl. by destruct (eidDisabledSet st).
  - rewrite (Forall2_length _ _ _ Hrendered).
    apply filter_length_Permutation, sortByASCII_Permutation.
Qed.

(** The nodes of the rendered items are new and all different: none was
    handed out before the rendering, and what the association held for the
    older nodes is still there. *)
Lemma renderExtensions_callback_nodes (all : list ExtensionInfo.t) (st : State) :
  let st' := renderExtensions_callback all st in
  NoDup (map li_node (ul_children st'))
  /\ Forall (fun li => (next_node st <= li_node li < next_node st')%nat) (ul_children st')
  /\ (forall n, (n < next_node st)%nat -> allExtIdMap st' !! n = allExtIdMap st !! n).
Proof.
  intros st'.
  destruct (renderExtensions_callback_rendered all st) as [_ Hnd].
  destruct (renderExtensions_loop_frame (sortByASCII st all) st [])
    as (_ & _ & Hold & Hnodes).
  split_and!; [done | | exact Hold].
  apply (Hnodes (next_node st)); [lia | constructor].
Qed.

(** X9: every rendered item shows the state of its record: the flag kept
    on the item is the record's enabled flag, the tooltip offers to disable
    an enabled record and to enable a disabled one, the icon of a disabled
    record is asked for in grayscale, and the item can take the focus. *)
Theorem renderExtensions_callback_state (all : list ExtensionInfo.t) (st : State) :
  let st' := renderExtensions_callback all st in
  Forall2
    (fun li item =>
       li_dataset_enabled li = ExtensionInfo.enabled item
       /\ li_title li = getMessage (if ExtensionInfo.enabled item
                                    then "disable_extension" else "enable_extension")
       /\ img_src li = IconInfo.url (iconInfo st item)
                       +:+ (if ExtensionInfo.enabled item then "" else "?grayscale=true")
       /\ li_tabIndex li = 0)
    (ul_children st')
    (List.filter (fun item => negb (hidden st item)) (sortByASCII st all)).
Proof.
  intros st'.
  destruct (renderExtensions_callback_rendered all st) as [Hrendered _].
  eapply Forall2_impl; [exact Hrendered|].
  intros li item (_ & _ & ->). done.
Qed.


(** ** Notifications and clicks on an item *)

Lemma toggleExtensionState_loop_nodes (st : State) (item : ExtensionInfo.t)
    (children : list Li) :
  map li_node (toggleExtensionState_loop st item children) = map li_node children.
Proof.
  induction children as [|li rest IH]; simpl; [done|].
  destruct (allExtIdMap st !! li_node li) as [known|]; simpl; [|by rewrite IH].
  destruct (String.eqb _ _); simpl; [done | by rewrite IH].
Qed.

Lemma toggleExtensionState_loop_no_match (st : State) (item : ExtensionInfo.t)
    (children : list Li) :
  (forall li known, In li children -> allExtIdMap st !! li_node li = Some known ->
                    ExtensionInfo.id known <> ExtensionInfo.id item) ->
  toggleExtensionState_loop st item children = children.
Proof.
  induction children as [|li rest IH]; intros Hnone; simpl; [done|].
  rewrite IH by (intros li' known Hin; apply Hnone; by right).
  destruct (allExtIdMap st !! li_node li) as [known|] eqn:Hknown; [|done].
  apply (Hnone li known (or_introl eq_refl)), String.eqb_neq in Hknown.
  by rewrite Hknown.
Qed.

Lemma toggleExtensionState_loop_first_match (st : State) (item : ExtensionInfo.t)
    (children : list Li) :
  forall (k : nat) (li : Li) (known : ExtensionInfo.t),
    children !! k = Some li ->
    allExtIdMap st !! li_node li = Some known ->
    ExtensionInfo.id known = ExtensionInfo.id item ->
    (forall j li' known', (j < k)%nat -> children !! j = Some li' ->
                          allExtIdMap st !! li_node li' = Some known' ->
                          ExtensionInfo.id known' <> ExtensionInfo.id item) ->
    toggleExtensionState_loop st item children
    = <[k := renderExtensionState st li item]> children.
Proof.
  induction children as [|first rest IH]; intros k li known Hk Hknown Hid Hbefore; [done|].
  destruct k as [|k]; simpl in *.
  - injection Hk as ->. rewrite Hknown.
    apply String.eqb_eq in Hid. by rewrite Hid.
  - rewrite (IH k li known Hk Hknown Hid).
    + destruct (allExtIdMap st !! li_node first) as [known'|] eqn:Hfirst; [|done].
      assert (ExtensionInfo.id known' <> ExtensionInfo.id item) as Hne
        by (apply (Hbefore 0%nat first known'); [lia | done | done]).
      apply String.eqb_neq in Hne. by rewrite Hne.
    + intros j li' known' Hj. apply (Hbefore (S j)). lia.
Qed.

(** X10: a notification about a record redraws at most one item, the first
    one tied to a record with the same identifier, as [renderExtensionState]
    draws the record notified; the items keep their nodes and their order,
    nothing but the list changes, and with no item tied to the identifier the
    popup stays as it is. *)
Theorem toggleExtensionState_one (item : ExtensionInfo.t) (st : State) :
  let st' := toggleExtensionState item st in
  map li_node (ul_children st') = map li_node (ul_children st)
  /\ set_ul_children (ul_children st) st' = st
  /\ ((forall li known, In li (ul_children st) ->
                        allExtIdMap st !! li_node li = Some known ->
                        ExtensionInfo.id known <> ExtensionInfo.id item) ->
      st' = st)
  /\ (forall k li known,
        ul_children st !! k = Some li ->
        allExtIdMap st !! li_node li = Some known ->
        ExtensionInfo.id known = ExtensionInfo.id item ->
        (forall j li' known', (j < k)%nat -> ul_children st !! j = Some li' ->
                              allExtIdMap st !! li_node li' = Some known' ->
                              ExtensionInfo.id known' <> ExtensionInfo.id item) ->
        ul_children st' = <[k := renderExtensionState st li item]> (ul_children st)).
Proof.
  split_and!.
  - apply toggleExtensionState_loop_nodes.
  - by destruct st.
  - intros Hnone. unfold toggleExtensionState.
    rewrite toggleExtensionState_loop_no_match by done. by destruct st.
  - intros k li known Hk Hknown Hid Hbefore.
    by apply (toggleExtensionState_loop_first_match st item _ k li known).
Qed.

Lemma filter_map_NoDup {A B : Type} (f : A -> bool) (g : A -> B) (l : list A) :
  NoDup (map g l) -> NoDup (map g (List.filter f l)).
Proof.
  intros Hnd. apply (sublist_NoDup _ _ Hnd), (fmap_sublist g), filter_sublist.
Qed.

Lemma shown_NoDup (st : State) (all : list ExtensionInfo.t) :
  NoDup (map ExtensionInfo.id all) ->
  NoDup (map ExtensionInfo.id
           (List.filter (fun item => negb (hidden st item)) (sortByASCII st all))).
Proof.
  intros Hnd. apply filter_map_NoDup.
  by rewrite (fmap_Permutation ExtensionInfo.id _ _ (sortByASCII_Permutation st all)).
Qed.

(** X11: once a list with distinct identifiers is rendered, a notification
    about the record shown at position [k] redraws the item at position [k]
    with the state notified, and no other item. *)
Theorem toggleExtensionState_rendered (all : list ExtensionInfo.t) (st : State)
    (k : nat) (shown item : ExtensionInfo.t) :
  NoDup (map ExtensionInfo.id all) ->
  List.filter (fun item => negb (hidden st item)) (sortByASCII st all) !! k = Some shown ->
  ExtensionInfo.id item = ExtensionInfo.id shown ->
  let st' := renderExtensions_callback all st in
  exists li,
    ul_children st' !! k = Some li
    /\ ul_children (toggleExtensionState item st')
       = <[k := renderExtensionState st' li item]> (ul_children st')
    /\ ul_children (toggleExtensionState item st') !! k
       = Some (renderExtensionState st' li item)
    /\ li_dataset_enabled (renderExtensionState st' li item) = ExtensionInfo.enabled item.
Proof.
  intros Hnd Hk Hid st'.
  destruct (renderExtensions_callback_rendered all st) as [Hrendered _].
  fold st' in Hrendered.
  destruct (Forall2_lookup_r _ _ _ _ _ Hrendered Hk) as (li & Hli & _ & Hknown & _).
  assert (ul_children (toggleExtensionState item st')
          = <[k := renderExtensionState st' li item]> (ul_children st')) as Heq.
  { apply (toggleExtensionState_loop_first_match st' item _ k li shown); [done..|].
    intros j li' known' Hj Hli' Hknown' Hsame.
    destruct (Forall2_lookup_l _ _ _ _ _ Hrendered Hli') as (shown' & Hshown' & _ & Hlook & _).
    rewrite Hknown' in Hlook. injection Hlook as <-.
    pose proof (shown_NoDup st all Hnd) as Hids.
    assert (j = k); [|lia].
    apply (NoDup_lookup _ j k (ExtensionInfo.id shown) Hids).
    - rewrite list_lookup_fmap, Hshown'. simpl. by rewrite Hsame, Hid.
    - by rewrite list_lookup_fmap, Hk. }
  exists li. split_and!; [done | done | | done].
  rewrite Heq. apply list_lookup_insert_eq. by eapply lookup_lt_Some.
Qed.

(** X12: a click on the item rendered at position [k] asks the platform for
    the record shown there, by its identifier, and changes nothing in the
    popup; the answer is turned into one request for the opposite of the
    state the platform reports, without a callback.  A click on a node the
    association does not know, or outside the header and the list, asks for
    nothing. *)
Theorem click_rendered_item (all : list ExtensionInfo.t) (st : State)
    (k : nat) (shown : ExtensionInfo.t) :
  List.filter (fun item => negb (hidden st item)) (sortByASCII st all) !! k = Some shown ->
  let st' := renderExtensions_callback all st in
  (exists li,
     ul_children st' !! k = Some li
     /\ handle (Click (LI (li_node li))) st' = (st', [management_get (ExtensionInfo.id shown)]))
  /\ (forall current,
        ExtensionInfo.id current = ExtensionInfo.id shown ->
        get_callback current
        = [management_setEnabled (ExtensionInfo.id shown)
             (negb (ExtensionInfo.enabled current)) None])
  /\ (forall node s, allExtIdMap s !! node = None -> handle (Click (LI node)) s = (s, []))
  /\ (forall s, handle (Click Body) s = (s, [])).
Proof.
  intros Hk st'.
  destruct (renderExtensions_callback_rendered all st) as [Hrendered _].
  fold st' in Hrendered.
  destruct (Forall2_lookup_r _ _ _ _ _ Hrendered Hk) as (li & Hli & _ & Hknown & _).
  split_and!.
  - exists li. split; [done|].
    change (handle (Click (LI (li_node li))) st') with (ul_click (LI (li_node li)) st').
    unfold ul_click. by rewrite Hknown.
  - intros current Hid. unfold get_callback. by rewrite Hid.
  - intros node s Hnone. simpl. by rewrite Hnone.
  - done.
Qed.


(** ** More on the keyboard *)

Lemma findIndex_bounds {A : Type} (pred : A -> bool) (l : list A) :
  -1 <= findIndex pred l < Z.of_nat (length l).
Proof.
  induction l as [|x l IH]; simpl; [lia|].
  destruct (pred x); [lia|].
  destruct (Z.ltb_spec (findIndex pred l) 0); lia.
Qed.

Lemma findIndex_none {A : Type} (pred : A -> bool) (l : list A) :
  Forall (fun x => pred x = false) l -> findIndex pred l = -1.
Proof.
  induction 1 as [|x l Hx _ IH]; simpl; [done|]. rewrite Hx, IH. done.
Qed.

Lemma set_activeElement_same (st : State) : set_activeElement (focused st) st = st.
Proof. by destruct st. Qed.

Lemma focus_in_range (els : list Element) (k : Z) (st : State) :
  0 <= k < Z.of_nat (length els) ->
  exists el, els !! Z.to_nat k = Some el
             /\ focus (Array_get els k) st
                = if attached st then set_activeElement el st else st.
Proof.
  intros Hk. rewrite Array_get_lookup by lia.
  destruct (lookup_lt_is_Some_2 els (Z.to_nat k)) as [el Hel]; [lia|].
  exists el. by rewrite Hel.
Qed.

(** A move always finds an element of the sequence to call [focus] on. *)
Lemma focusClickableElement_lands (offset : Z) (st : State) :
  offset = 1 \/ offset = -1 ->
  exists el, el ∈ clickableElements st
             /\ focusClickableElement offset st
                = if attached st then set_activeElement el st else st.
Proof.
  intros Hoffset. unfold focusClickableElement.
  pose proof (clickableElements_length st) as Hlen.
  pose proof (findIndex_bounds (fun element => bool_decide (element = activeElement st))
                (clickableElements st)) as Hindex.
  set (index := findIndex _ _) in *. set (els := clickableElements st) in *.
  unfold js_rem.
  destruct Hoffset as [-> | ->]; simpl (_ =? _).
  - destruct (focus_in_range els (Z.rem (index + 1) (Z.of_nat (length els))) st)
      as (el & Hel & Hfocus); [apply Z.rem_bound_pos; lia|].
    exists el. split; [by eapply list_elem_of_lookup_2 | done].
  - destruct (focus_in_range els
                (Z.rem (index `max` 0 + -1 + Z.of_nat (length els)) (Z.of_nat (length els))) st)
      as (el & Hel & Hfocus); [apply Z.rem_bound_pos; lia|].
    exists el. split; [by eapply list_elem_of_lookup_2 | done].
Qed.

Lemma keydown_cases (key : string) (shiftKey : bool) (st : State) :
  (key = "Tab" /\ keydown key shiftKey st = focusClickableElement (if shiftKey then -1 else 1) st)
  \/ (key = "ArrowUp" /\ keydown key shiftKey st = focusClickableElement (-1) st)
  \/ (key = "ArrowDown" /\ keydown key shiftKey st = focusClickableElement 1 st)
  \/ (key <> "Tab" /\ key <> "ArrowUp" /\ key <> "ArrowDown" /\ keydown key shiftKey st = st).
Proof.
  unfold keydown.
  destruct (String.eqb_spec key "Tab") as [->|HTab]; [by left|].
  destruct (String.eqb_spec key "ArrowUp") as [->|HUp]; [right; by left|].
  destruct (String.eqb_spec key "ArrowDown") as [->|HDown]; [right; right; by left|].
  right; right; right. done.
Qed.

(** What a key press does to the state, by whether the header and the list
    are in the document. *)
Lemma keydown_lands (key : string) (shiftKey : bool) (st : State) :
  (key <> "Tab" /\ key <> "ArrowUp" /\ key <> "ArrowDown" /\ keydown key shiftKey st = st)
  \/ exists el, el ∈ clickableElements st
                /\ (key = "Tab" \/ key = "ArrowUp" \/ key = "ArrowDown")
                /\ keydown key shiftKey st
                   = if attached st then set_activeElement el st else st.
Proof.
  destruct (keydown_cases key shiftKey st)
    as [[Hkey ->]|[[Hkey ->]|[[Hkey ->]|(HTab & HUp & HDown & ->)]]].
  - destruct (focusClickableElement_lands (if shiftKey then -1 else 1) st)
      as (el & Hel & ->); [destruct shiftKey; auto|].
    right. exists el. auto.
  - destruct (focusClickableElement_lands (-1) st) as (el & Hel & ->); [auto|].
    right. exists el. auto.
  - destruct (focusClickableElement_lands 1 st) as (el & Hel & ->); [auto|].
    right. exists el. auto.
  - by left.
Qed.

Lemma keydown_set_activeElement (key : string) (shiftKey : bool) (st : State) :
  exists el, keydown key shiftKey st = set_activeElement el st.
Proof.
  destruct (keydown_lands key shiftKey st) as [(_ & _ & _ & ->)|(el & _ & _ & ->)].
  - exists (focused st). by rewrite set_activeElement_same.
  - destruct (attached st); [by exists el|].
    exists (focused st). by rewrite set_activeElement_same.
Qed.

(** X13: once the header and the list are in the document, that is after
    a rendering, when the focus is on none of the header and the items, a
    forward move (Tab, ArrowDown) focuses the header and a backward move
    (Shift+Tab, ArrowUp) focuses the last element of the sequence. *)
Theorem focus_from_outside (st : State) :
  attached st = true ->
  activeElement st ∉ clickableElements st ->
  activeElement (keydown "Tab" false st) = H1
  /\ (forall shiftKey, activeElement (keydown "ArrowDown" shiftKey st) = H1)
  /\ Some (activeElement (keydown "Tab" true st)) = last (clickableElements st)
  /\ (forall shiftKey,
        Some (activeElement (keydown "ArrowUp" shiftKey st)) = last (clickableElements st)).
Proof.
  intros Hatt Hout.
  assert (findIndex (fun element => bool_decide (element = activeElement st))
            (clickableElements st) = -1) as Hindex.
  { apply findIndex_none, Forall_forall. intros el Hel.
    apply bool_decide_eq_false. by intros ->. }
  pose proof (clickableElements_length st) as Hlen.
  assert (activeElement (focusClickableElement 1 st) = H1) as Hfwd.
  { unfold focusClickableElement. rewrite Hindex. simpl (_ =? _). unfold js_rem.
    rewrite Z.rem_0_l by lia.
    pose proof (focus_lookup (clickableElements st) 0 st Hatt ltac:(lia)) as Hfocus.
    symmetry. apply (inj Some). exact Hfocus. }
  assert (Some (activeElement (focusClickableElement (-1) st))
          = last (clickableElements st)) as Hbwd.
  { unfold focusClickableElement. rewrite Hindex. simpl (_ =? _). unfold js_rem.
    rewrite Z.rem_small by lia.
    replace ((-1) `max` 0 + -1 + Z.of_nat (length (clickableElements st)))
      with (Z.of_nat (length (clickableElements st)) - 1) by lia.
    rewrite last_lookup.
    rewrite <- (focus_lookup _ (Z.of_nat (length (clickableElements st)) - 1) st)
      by (done || lia).
    f_equal. lia. }
  split_and!; done.
Qed.

(** X14: a key press changes nothing but the element that has the focus.
    Once the header and the list are in the document, Tab, ArrowUp and
    ArrowDown leave the focus on the header or on a rendered item, wherever
    it was before.  Before that, that is until the first rendering, a key
    press leaves the popup as it is, with the focus on the body; and so does
    any other key at any time. *)
Theorem keydown_focus_only (key : string) (shiftKey : bool) (st : State) :
  (exists el, keydown key shiftKey st = set_activeElement el st)
  /\ (attached st = true ->
      keydown key shiftKey st
      = set_activeElement (activeElement (keydown key shiftKey st)) st
      /\ (key = "Tab" \/ key = "ArrowUp" \/ key = "ArrowDown" ->
          activeElement (keydown key shiftKey st) ∈ clickableElements st))
  /\ (attached st = false ->
      keydown key shiftKey st = st /\ activeElement (keydown key shiftKey st) = Body)
  /\ (key <> "Tab" -> key <> "ArrowUp" -> key <> "ArrowDown" ->
      keydown key shiftKey st = st).
Proof.
  split_and!.
  - apply keydown_set_activeElement.
  - intros Hatt.
    destruct (keydown_lands key shiftKey st)
      as [(HTab & HUp & HDown & ->)|(el & Hel & Hkey & ->)].
    + split.
      * unfold activeElement. rewrite Hatt. by rewrite set_activeElement_same.
      * intros [?|[?|?]]; done.
    + rewrite Hatt. rewrite activeElement_set_activeElement by done. done.
  - intros Hdet.
    assert (keydown key shiftKey st = st) as ->.
    { destruct (keydown_lands key shiftKey st)
        as [(_ & _ & _ & ->)|(el & _ & _ & ->)]; [done|].
      by rewrite Hdet. }
    split; [done|]. unfold activeElement. by rewrite Hdet.
  - intros HTab HUp HDown.
    destruct (keydown_cases key shiftKey st)
      as [[? _]|[[? _]|[[? _]|(_ & _ & _ & ->)]]]; done.
Qed.

(** ** What the listeners and the callbacks leave alone *)

Lemma set_ul_children_same (st : State) : set_ul_children (ul_children st) st = st.
Proof. by destruct st. Qed.

(** An event changes at most the focus and the drawing of the items. *)
Lemma handle_state (e : Event) (st : State) :
  exists el children,
    (handle e st).1 = set_activeElement el (set_ul_children children st)
    /\ map li_node children = map li_node (ul_children st).
Proof.
  assert (exists el children,
             st = set_activeElement el (set_ul_children children st)
             /\ map li_node children = map li_node (ul_children st)) as Hsame.
  { exists (focused st), (ul_children st). split; [by destruct st | done]. }
  assert (forall target, (click target st).1 = st) as Hclick.
  { intros [|node|]; simpl; [|..].
    - unfold h1_click. by destruct (has_size _).
    - by destruct (allExtIdMap st !! node).
    - done. }
  destruct e as [target|key target|key shiftKey|item|item| |]; simpl.
  - by rewrite Hclick.
  - unfold keyup. destruct (String.eqb key "Enter"); [by rewrite Hclick | done].
  - destruct (keydown_set_activeElement key shiftKey st) as [el ->].
    exists el, (ul_children st). split; [by destruct st | done].
  - exists (focused st), (toggleExtensionState_loop st item (ul_children st)).
    split; [by destruct st | apply toggleExtensionState_loop_nodes].
  - exists (focused st), (toggleExtensionState_loop st item (ul_children st)).
    split; [by destruct st | apply toggleExtensionState_loop_nodes].
  - done.
  - done.
Qed.

Lemma handle_calls (e : Event) (st : State) :
  Forall (fun call => match call with
                      | management_setEnabled _ _ _ => False
                      | _ => True
                      end) (handle e st).2.
Proof.
  assert (forall target,
             Forall (fun call => match call with
                                 | management_setEnabled _ _ _ => False
                                 | _ => True
                                 end) (click target st).2) as Hclick.
  { intros [|node|]; simpl.
    - unfold h1_click. destruct (has_size _); by repeat constructor.
    - destruct (allExtIdMap st !! node); by repeat constructor.
    - constructor. }
  destruct e as [target|key target|key shiftKey|item|item| |]; simpl.
  - done.
  - unfold keyup. destruct (String.eqb key "Enter"); [done | constructor].
  - constructor.
  - constructor.
  - constructor.
  - by repeat constructor.
  - by repeat constructor.
Qed.

(** X15: no event, from the user or from the platform, changes the
    disabled-by-us set, the local storage, the header or the association of
    the items, and no listener asks the platform by itself to enable or to
    disable an extension: such requests come from callbacks only. *)
Theorem handle_leaves_set_alone (e : Event) (st : State) :
  eidDisabledSet (handle e st).1 = eidDisabledSet st
  /\ localStorage (handle e st).1 = localStorage st
  /\ h1_textContent (handle e st).1 = h1_textContent st
  /\ allExtIdMap (handle e st).1 = allExtIdMap st
  /\ map li_node (ul_children (handle e st).1) = map li_node (ul_children st)
  /\ Forall (fun call => match call with
                         | management_setEnabled _ _ _ => False
                         | _ => True
                         end) (handle e st).2.
Proof.
  destruct (handle_state e st) as (el & children & -> & Hnodes).
  split_and!; try done. apply handle_calls.
Qed.

Lemma step_invariant (i : Input) (st : State) :
  partition (step i st) = partition st
  /\ maxIconSize (step i st) = maxIconSize st
  /\ excludeType (step i st) = excludeType st
  /\ (NoDup (eidDisabledSet st) -> NoDup (eidDisabledSet (step i st)))
  /\ (NoDup (map li_node (ul_children st)) ->
      NoDup (map li_node (ul_children (step i st)))).
Proof.
  destruct i as [e|k all|[item_id tailId]].
  - change (step (Dispatch e) st) with ((handle e st).1).
    destruct (handle_state e st) as (el & children & -> & Hnodes). simpl.
    rewrite Hnodes. done.
  - destruct k.
    + change (step (GetAllAnswer RenderExtensions all) st)
        with (renderExtensions_callback all st).
      destruct (renderExtensions_callback_frame all st) as (Hset & _ & Hx & Hp & Hm).
      destruct (renderExtensions_callback_rendered all st) as [_ Hnd].
      rewrite Hset, Hx, Hp, Hm. done.
    + done.
    + simpl. split_and!; try done. intros _. constructor.
  - simpl. destruct (bool_decide _); simpl; split_and!; try done; apply Set_add_NoDup.
Qed.

Lemma run_invariant (inputs : list Input) (st : State) :
  NoDup (eidDisabledSet st) ->
  NoDup (map li_node (ul_children st)) ->
  partition (run inputs st) = partition st
  /\ maxIconSize (run inputs st) = maxIconSize st
  /\ excludeType (run inputs st) = excludeType st
  /\ NoDup (eidDisabledSet (run inputs st))
  /\ NoDup (map li_node (ul_children (run inputs st))).
Proof.
  revert st. induction inputs as [|i inputs IH]; intros st Hset Hnodes; [done|].
  destruct (step_invariant i st) as (Hp & Hm & Hx & Hs & Hn).
  change (run (i :: inputs) st) with (run inputs (step i st)).
  destruct (IH (step i st) (Hs Hset) (Hn Hnodes)) as (-> & -> & -> & ? & ?).
  done.
Qed.

(** X16: whatever events, answers and completions reach the popup after
    start-up, in whatever order, it keeps sorting without the partition,
    bounds the icons by 64 and excludes the types settled at start-up; the
    disabled-by-us set never holds an identifier twice, and the header and
    the rendered items are all different elements. *)
Theorem run_keeps_settings (stored : option (gmap string bool)) (ls : gmap string string)
    (inputs : list Input) :
  let st := run inputs (main stored ls).1 in
  partition st = false
  /\ maxIconSize st = 64
  /\ excludeType st = main_excludeType stored
  /\ NoDup (eidDisabledSet st)
  /\ NoDup (clickableElements st).
Proof.
  intros st.
  destruct (run_invariant inputs (main stored ls).1) as (Hp & Hm & Hx & Hs & Hn).
  - simpl. unfold readFromLocal. simpl. apply foldl_Set_add_keeps_NoDup. constructor.
  - simpl. constructor.
  - fold st in Hp, Hm, Hx, Hs, Hn. split_and!; try done.
    unfold clickableElements. simpl. apply NoDup_cons. split.
    + intros Hin. apply list_elem_of_fmap in Hin as (li & [=] & _).
    + rewrite (list_fmap_compose li_node LI). apply NoDup_fmap_2; [|done].
      by intros n m [= ->].
Qed.


(** ** More on the bulk operations *)

(** Completions that are not the last one only add to the set. *)
Lemma fire_not_tail (cbs : list Callback) (s : State) :
  Forall (fun cb => ~ is_tail cb) cbs ->
  fire cbs s
  = set_eidDisabledSet
      (foldl (fun set cb => Set_add (callback_id cb) set) (eidDisabledSet s) cbs) s.
Proof.
  revert s. induction cbs as [|[item_id tailId] cbs IH]; intros s Hcbs.
  - simpl. by rewrite set_eidDisabledSet_same.
  - apply Forall_cons in Hcbs as [Hcb Hcbs]. rewrite fire_cons, IH by done.
    simpl in *. rewrite bool_decide_eq_false_2 by (intros Heq; by apply Hcb).
    done.
Qed.

Lemma foldl_Set_add_callbacks (tailId : option string) (items : list ExtensionInfo.t)
    (set : list string) :
  foldl (fun set cb => Set_add (callback_id cb) set) set
    (map (fun item => DisableDone (ExtensionInfo.id item) tailId) items)
  = foldl (fun s id => Set_add id s) set (map ExtensionInfo.id items).
Proof.
  revert set. induction items as [|item items IH]; intros set; simpl; [done|]. apply IH.
Qed.

Lemma front_not_tail (front : list ExtensionInfo.t) (lst : ExtensionInfo.t) :
  NoDup (map ExtensionInfo.id (front ++ [lst])) ->
  Forall (fun cb => ~ is_tail cb)
    (map (fun item => DisableDone (ExtensionInfo.id item) (Some (ExtensionInfo.id lst)))
       front).
Proof.
  intros Hnd. apply Forall_fmap, Forall_forall. intros item Hitem [= Heq].
  rewrite map_app in Hnd. apply NoDup_app in Hnd as (_ & Hdisj & _).
  apply (Hdisj (ExtensionInfo.id item)).
  - apply list_elem_of_fmap. by exists item.
  - rewrite <- Heq. simpl. by apply list_elem_of_singleton.
Qed.

Lemma eidDisabledSet_fire (tailId : option string) (items : list ExtensionInfo.t)
    (s : State) :
  eidDisabledSet (fire (map (fun item => DisableDone (ExtensionInfo.id item) tailId) items) s)
  = foldl (fun s id => Set_add id s) (eidDisabledSet s) (map ExtensionInfo.id items).
Proof.
  revert s. induction items as [|item items IH]; intros s; [done|].
  rewrite !map_cons, fire_cons, IH, setEnabled_callback_set. done.
Qed.

Lemma excludeType_fire (cbs : list Callback) (s : State) :
  excludeType (fire cbs s) = excludeType s.
Proof.
  revert s. induction cbs as [|[item_id tailId] cbs IH]; intros s; [done|].
  rewrite fire_cons, IH. simpl. by destruct (bool_decide _).
Qed.

Lemma filter_all_true {A : Type} (f : A -> bool) (l : list A) :
  Forall (fun x => f x = true) l -> List.filter f l = l.
Proof. induction 1 as [|x l Hx _ IH]; simpl; [done|]. by rewrite Hx, IH. Qed.

(** X17: nothing is persisted before the end.  When the filtered records
    have distinct identifiers, the completions of all the requests but the
    last one, fired in the order of issuance, add their identifiers to the
    set in memory and leave the storage and the header as they were. *)
Theorem oneKeyDisable_persists_at_the_end (st s : State) (all front : list ExtensionInfo.t)
    (lst : ExtensionInfo.t) :
  oneKeyDisable_filtered st all = front ++ [lst] ->
  NoDup (map ExtensionInfo.id (oneKeyDisable_filtered st all)) ->
  let cbs := callbacks (oneKeyDisable_callback all st).2 in
  let s' := fire (take (length front) cbs) s in
  s' = set_eidDisabledSet (eidDisabledSet s') s
  /\ eidDisabledSet s'
     = foldl (fun s id => Set_add id s) (eidDisabledSet s) (map ExtensionInfo.id front)
  /\ localStorage s' = localStorage s
  /\ h1_textContent s' = h1_textContent s.
Proof.
  intros Hfiltered Hnd cbs s'.
  assert (take (length front) cbs
          = map (fun item => DisableDone (ExtensionInfo.id item)
                               (Some (ExtensionInfo.id lst))) front) as Htake.
  { subst cbs. unfold oneKeyDisable_callback. simpl.
    rewrite callbacks_oneKeyDisable_loop, Hfiltered, last_snoc, map_app. simpl.
    rewrite take_app_length'; [done | by rewrite length_map]. }
  subst s'. rewrite Htake.
  rewrite fire_not_tail by (apply front_not_tail; by rewrite <- Hfiltered).
  rewrite foldl_Set_add_callbacks. done.
Qed.

(** X18: the order of the completions matters.  When the completion of the
    last request fires before the others, the storage keeps what the set
    held at that moment: the identifiers of the later completions are added
    in memory only. *)
Theorem oneKeyDisable_last_completes_first (st s : State)
    (all front : list ExtensionInfo.t) (lst : ExtensionInfo.t) :
  oneKeyDisable_filtered st all = front ++ [lst] ->
  NoDup (map ExtensionInfo.id (oneKeyDisable_filtered st all)) ->
  let tailId := Some (ExtensionInfo.id lst) in
  let early := DisableDone (ExtensionInfo.id lst) tailId in
  let late := map (fun item => DisableDone (ExtensionInfo.id item) tailId) front in
  let s' := fire (early :: late) s in
  callbacks (oneKeyDisable_callback all st).2 = late ++ [early]
  /\ localStorage s' !! deiKey
     = Some (Array_join comma (Set_add (ExtensionInfo.id lst) (eidDisabledSet s)))
  /\ eidDisabledSet s'
     = foldl (fun s id => Set_add id s)
         (Set_add (ExtensionInfo.id lst) (eidDisabledSet s)) (map ExtensionInfo.id front)
  /\ h1_textContent s' = getMessage "one_key_restore".
Proof.
  intros Hfiltered Hnd tailId early late s'. subst tailId early late s'.
  split.
  { unfold oneKeyDisable_callback. simpl.
    by rewrite callbacks_oneKeyDisable_loop, Hfiltered, last_snoc, map_app. }
  rewrite fire_cons.
  rewrite fire_not_tail by (apply front_not_tail; by rewrite <- Hfiltered).
  rewrite foldl_Set_add_callbacks.
  pose proof (setEnabled_callback_tail (ExtensionInfo.id lst) s) as Htail.
  cbv zeta in Htail. destruct Htail as [Hstored Hheader].
  pose proof (setEnabled_callback_set (ExtensionInfo.id lst)
                (Some (ExtensionInfo.id lst)) s) as Hset.
  set (after := setEnabled_callback _ s) in *. clearbody after.
  simpl. rewrite Hstored, Hset. done.
Qed.

(** X19: bulk restore undoes bulk disable.  Start from an empty set, let
    the completions of a bulk disable of records with distinct identifiers
    fire in the order of issuance, and let the platform then report these
    records disabled: bulk restore asks to enable exactly the records that
    were asked to be disabled, in the same order. *)
Theorem oneKeyDisable_then_oneKeyRestore (st : State) (all all' : list ExtensionInfo.t) :
  eidDisabledSet st = [] ->
  NoDup (map ExtensionInfo.id (oneKeyDisable_filtered st all)) ->
  (forall item, In item (oneKeyDisable_filtered st all) ->
                exists item', In item' all'
                              /\ ExtensionInfo.id item' = ExtensionInfo.id item
                              /\ ExtensionInfo.enabled item' = false
                              /\ (ExtensionInfo.type item' ∉ excludeType st)) ->
  let s' := fire (callbacks (oneKeyDisable_callback all st).2) st in
  eidDisabledSet s' = map ExtensionInfo.id (oneKeyDisable_filtered st all)
  /\ (oneKeyRestore_callback all' s').2
     = map (fun item => management_setEnabled (ExtensionInfo.id item) true None)
         (oneKeyDisable_filtered st all).
Proof.
  intros Hempty Hnd Hplatform s'.
  assert (eidDisabledSet s' = map ExtensionInfo.id (oneKeyDisable_filtered st all)) as Hset.
  { subst s'. unfold oneKeyDisable_callback. simpl.
    rewrite callbacks_oneKeyDisable_loop, eidDisabledSet_fire, Hempty.
    by rewrite (foldl_Set_add_NoDup _ []). }
  split; [done|].
  unfold oneKeyRestore_callback. simpl. rewrite oneKeyRestore_loop_filter, Hset.
  rewrite filter_all_true; [by rewrite map_map|].
  apply Forall_fmap, Forall_forall. intros item Hin. apply list_elem_of_In in Hin.
  destruct (Hplatform item Hin) as (item' & Hin' & Hid & Hoff & Hex).
  apply bool_decide_eq_true, oneKeyRestore_disabledExisting_elem.
  exists item'. split; [done|].
  apply oneKeyRestore_pick_Some. subst s'. rewrite excludeType_fire.
  split_and!; try done.
  apply oneKeyDisable_filtered_In in Hin. logic.
Qed.

(** X20: the bulk operations alternate.  After a bulk disable that found a
    record to disable, once its completions have fired in the order of
    issuance, an activation of the header invokes bulk restore; after a bulk
    restore it invokes bulk disable; and a bulk disable that found nothing,
    on an empty set, leaves the header to invoke bulk disable again. *)
Theorem bulk_operations_alternate (st : State) (all : list ExtensionInfo.t) :
  (oneKeyDisable_filtered st all <> [] ->
   forall s, (h1_click (fire (callbacks (oneKeyDisable_callback all st).2) s)).2
             = [management_getAll OneKeyRestore])
  /\ (h1_click (oneKeyRestore_callback all st).1).2 = [management_getAll OneKeyDisable]
  /\ (oneKeyDisable_filtered st all = [] -> eidDisabledSet st = [] ->
      (h1_click (oneKeyDisable_callback all st).1).2 = [management_getAll OneKeyDisable]).
Proof.
  split_and!.
  - intros Hne s. unfold oneKeyDisable_callback. simpl.
    rewrite callbacks_oneKeyDisable_loop.
    destruct (oneKeyDisable_filtered st all) as [|item items] eqn:Hitems; [done|].
    set (s' := fire _ s).
    assert (ExtensionInfo.id item ∈ eidDisabledSet s') as Hin.
    { apply fire_set. right. by left. }
    unfold h1_click. destruct (eidDisabledSet s'); [by apply elem_of_nil in Hin | done].
  - done.
  - intros _ Hempty. unfold h1_click. simpl. by rewrite Hempty.
Qed.

Lemma renderExtensions_callback_h1 (all : list ExtensionInfo.t) (st : State) :
  h1_textContent (renderExtensions_callback all st)
  = getMessage (if has_size (eidDisabledSet st)
                then "one_key_restore" else "one_key_disable").
Proof.
  unfold renderExtensions_callback. simpl.
  destruct (renderExtensions_loop_frame (sortByASCII st all) st []) as (Hframe & _).
  by rewrite Hframe.
Qed.

(** X21: the header after start-up.  The first rendering writes the
    "one_key_restore" message exactly when the storage holds a non-empty
    value under the key, and the set then holds the pieces of that value. *)
Theorem main_header (stored : option (gmap string bool)) (ls : gmap string string)
    (all : list ExtensionInfo.t) :
  let st := (main stored ls).1 in
  h1_textContent (renderExtensions_callback all st)
  = getMessage (if truthy (ls !! deiKey) then "one_key_restore" else "one_key_disable")
  /\ (forall id, id ∈ eidDisabledSet st <->
                 exists data, ls !! deiKey = Some data
                              /\ data <> ""
                              /\ id ∈ String_split comma data).
Proof.
  intros st.
  assert (eidDisabledSet st
          = foldl (fun s id => Set_add id s) []
              (match ls !! deiKey with
               | Some data => if String.eqb data "" then [] else String_split comma data
               | None => []
               end)) as Hset.
  { unfold st.
    change ((main stored ls).1)
      with (readFromLocal (constructor (main_excludeType stored) ls)).
    by rewrite readFromLocal_eq. }
  split.
  - rewrite renderExtensions_callback_h1, Hset.
    destruct (ls !! deiKey) as [data|]; simpl; [|done].
    destruct (String.eqb data ""); simpl; [done|].
    pose proof (String_split_not_nil comma data) as Hne.
    destruct (String_split comma data) as [|piece pieces]; [done|]. simpl.
    pose proof (foldl_Set_add_prefix pieces (Set_add piece [])) as [rest ->].
    done.
  - intros id. rewrite Hset, foldl_Set_add_elem, elem_of_nil.
    destruct (ls !! deiKey) as [data|].
    + destruct (String.eqb_spec data "") as [Hempty|Hdata].
      * rewrite elem_of_nil. split; [intros [[]|[]]|].
        intros (data' & [= <-] & Hne & _). done.
      * split; [intros [[]|?]; by exists data|].
        intros (data' & [= <-] & _ & ?). by right.
    + rewrite elem_of_nil. split; [intros [[]|[]] | intros (data & [=] & _)].
Qed.

End ExtensionManager.

(** * The statements at work *)

Example split_pieces :
  String_split comma "a,,b" = ["a"; ""; "b"]
  /\ String_split comma "a," = ["a"; ""]
  /\ String_split comma "" = [""].
Proof. repeat split; reflexivity. Qed.

Example join_pieces :
  Array_join comma ["a"; "b"; "c"] = "a,b,c" /\ Array_join comma [] = "".
Proof. split; reflexivity. Qed.

(** The scenarios of the specification, run on the embedding. *)

Example scenario_render :
  map span_textContent
    (ul_children
       (renderExtensions_callback "self" (fun key => key) lengthCompare
          [extB; extSelf; extA] popup0))
  = ["Alpha"; "Beta blocker"].
Proof. vm_compute. reflexivity. Qed.

Example scenario_partition :
  map ExtensionInfo.id (sortByASCII lengthCompare popup_partitioned [extB; extSelf; extA])
  = ["aaaa"; "self"; "bbbb"].
Proof. reflexivity. Qed.

Example scenario_restore :
  oneKeyRestore_callback "self" (fun key => key) "disabled"
    [ExtensionInfo.mk "x" "X" None true "extension" None;
     ExtensionInfo.mk "y" "Y" None false "extension" None]
    (set_eidDisabledSet ["x"; "y"] popup0)
  = (set_h1_textContent "one_key_disable"
       (set_localStorage {["disabled" := ""]} popup0),
     [management_setEnabled "y" true None]).
Proof. vm_compute. reflexivity. Qed.

Example scenario_icon : iconInfo popup0 extA = icon48.
Proof. reflexivity. Qed.

(** Before the first rendering the header is not in the document: a key
    press leaves the focus on the body. *)
Example scenario_keydown_before_rendering :
  activeElement (keydown "Tab" false (main "disabled" ∅ None ∅).1) = Body
  /\ activeElement
       (keydown "Tab" false
          (renderExtensions_callback "self" (fun key => key) lengthCompare [extA]
             (main "disabled" ∅ None ∅).1)) = H1.
Proof. split; vm_compute; reflexivity. Qed.

Lemma compare_keys_total (a b : list N) : 0 < compare_keys a b -> compare_keys b a <= 0.
Proof.
  revert b. induction a as [|x a IH]; intros [|y b]; simpl; try lia.
  destruct (N.ltb_spec x y), (N.ltb_spec y x); try lia. apply IH.
Qed.

Lemma compare_keys_trans (a b c : list N) :
  compare_keys a b <= 0 -> compare_keys b c <= 0 -> compare_keys a c <= 0.
Proof.
  revert b c. induction a as [|x a IH]; intros [|y b] [|z c]; simpl; try lia.
  destruct (N.ltb_spec x y), (N.ltb_spec y x), (N.ltb_spec y z), (N.ltb_spec z y),
    (N.ltb_spec x z), (N.ltb_spec z x); try lia.
  apply IH.
Qed.

Lemma compare_keys_refines (a b ta tb : list N) :
  Forall (fun x => (0 < x)%N) a -> Forall (fun x => (0 < x)%N) b ->
  compare_keys (a ++ 0%N :: ta) (b ++ 0%N :: tb) <= 0 -> compare_keys a b <= 0.
Proof.
  intros Ha. revert b. induction Ha as [|x a Hx Ha IH]; intros b Hb.
  - destruct Hb; simpl; lia.
  - destruct Hb as [|y b Hy Hb]; simpl.
    + destruct (N.ltb_spec x 0), (N.ltb_spec 0 x); lia.
    + destruct (N.ltb_spec x y), (N.ltb_spec y x); try lia. by apply IH.
Qed.

Lemma letter_keys_positive (s : string) : Forall (fun x => (0 < x)%N) (keys letter_key s).
Proof.
  induction s as [|c s IH]; constructor; [|done].
  unfold letter_key. destruct (_ && _); lia.
Qed.

Lemma asciiLocaleCompare_total (a b : string) :
  0 < asciiLocaleCompare a b -> asciiLocaleCompare b a <= 0.
Proof. apply compare_keys_total. Qed.

Lemma asciiLocaleCompare_trans (a b c : string) :
  asciiLocaleCompare a b <= 0 -> asciiLocaleCompare b c <= 0 -> asciiLocaleCompare a c <= 0.
Proof. apply compare_keys_trans. Qed.

Lemma asciiLocaleCompare_refines (a b : string) :
  asciiLocaleCompare a b <= 0 -> asciiCaseInsensitiveCompare a b <= 0.
Proof. apply compare_keys_refines; apply letter_keys_positive. Qed.

(** The sorter run with the ASCII collation on "beta", "Alpha" and "alpha":
    "alpha" and "Alpha", alike but for case, change places and come before
    "beta"; in partition mode the enabled "Alpha" and "beta" come before the
    disabled "alpha". *)
Lemma sortByASCII_sorted_witness :
  let out := sortByASCII asciiLocaleCompare popup0 [extBeta; extA; extAlphaLower] in
  (forall a b, 0 < asciiLocaleCompare a b -> asciiLocaleCompare b a <= 0)
  /\ (forall a b c,
        asciiLocaleCompare a b <= 0 -> asciiLocaleCompare b c <= 0 ->
        asciiLocaleCompare a c <= 0)
  /\ (forall a b, asciiLocaleCompare a b <= 0 -> asciiCaseInsensitiveCompare a b <= 0)
  /\ out = [extAlphaLower; extA; extBeta]
  /\ out ≡ₚ [extBeta; extA; extAlphaLower]
  /\ StronglySorted (name_le_under asciiLocaleCompare) out
  /\ StronglySorted (name_le_under asciiCaseInsensitiveCompare) out
  /\ sortByASCII asciiLocaleCompare popup_partitioned [extBeta; extA; extAlphaLower]
     = [extA; extBeta] ++ [extAlphaLower].
Proof.
  intros out.
  pose proof (sortByASCII_sorted asciiLocaleCompare asciiCaseInsensitiveCompare
                asciiLocaleCompare_total asciiLocaleCompare_trans
                asciiLocaleCompare_refines popup0 [extBeta; extA; extAlphaLower])
    as (Hperm & Hsorted & Hblind).
  pose proof (sortByASCII_sorted asciiLocaleCompare asciiCaseInsensitiveCompare
                asciiLocaleCompare_total asciiLocaleCompare_trans
                asciiLocaleCompare_refines popup_partitioned [extBeta; extA; extAlphaLower])
    as (_ & Hparts & _).
  split; [exact asciiLocaleCompare_total|]. split; [exact asciiLocaleCompare_trans|].
  split; [exact asciiLocaleCompare_refines|]. split; [reflexivity|].
  split; [exact Hperm|]. split; [exact Hsorted|]. split; [exact Hblind | exact Hparts].
Defined.

(** The icon of a record with icons of 16, 48 and 128 pixels. *)
Lemma iconInfo_choice_witness :
  maxIconSize popup0 = 64
  /\ (IconInfo.size icon16 < 64 ->
      largest_below 64 [icon16; icon48; icon128] (iconInfo popup0 extA))
  /\ (Forall (fun icon => 64 <= IconInfo.size icon) [icon16; icon48; icon128] ->
      iconInfo popup0 extA = icon16).
Proof. split; [reflexivity | exact (iconInfo_choice popup0 extA eq_refl)]. Defined.

(** C3 as stated fails on a record whose first icon is 64 pixels or more:
    that icon is drawn, be it the only icon of the record or followed by one
    of 48 pixels. *)
Lemma iconInfo_large_icon_first :
  (ExtensionInfo.icons extLarge = Some [icon128]
   /\ iconInfo popup0 extLarge = icon128
   /\ ~ largest_below 64 [icon128] (iconInfo popup0 extLarge))
  /\ (ExtensionInfo.icons extTheme = Some [icon128; icon48]
      /\ iconInfo popup0 extTheme = icon128
      /\ ~ largest_below 64 [icon128; icon48] (iconInfo popup0 extTheme)).
Proof.
  split; (split; [reflexivity|]; split; [reflexivity|]);
    intros (_ & Hsmall & _); vm_compute in Hsmall; discriminate.
Qed.

(** The round trip of a set of two identifiers. *)
Lemma save_then_load_roundtrip_witness :
  NoDup ["aaaa"; "bbbb"]
  /\ Forall (fun id => comma_free id = true) ["aaaa"; "bbbb"]
  /\ ["aaaa"; "bbbb"] <> [""]
  /\ eidDisabledSet (save_then_load "disabled" ["aaaa"; "bbbb"] popup0) = ["aaaa"; "bbbb"]
  /\ roundtrip_at "disabled" ["aaaa"; "bbbb"] popup0.
Proof.
  assert (NoDup ["aaaa"; "bbbb"]) as Hnd by (apply (bool_decide_unpack _); vm_compute; exact I).
  assert (Forall (fun id => comma_free id = true) ["aaaa"; "bbbb"]) as Hfree
    by (repeat constructor).
  assert (["aaaa"; "bbbb"] <> [""]) as Hne by discriminate.
  split; [exact Hnd|]. split; [exact Hfree|]. split; [exact Hne|].
  exact (save_then_load_roundtrip "disabled" ["aaaa"; "bbbb"] popup0 Hnd Hfree Hne).
Defined.

(** C6 as stated fails on the set whose only member is the empty
    identifier: it is written as the empty string, which loads as no
    identifier at all. *)
Lemma save_then_load_empty_identifier :
  NoDup [""]
  /\ Forall (fun id => comma_free id = true) [""]
  /\ eidDisabledSet (save_then_load "disabled" [""] popup0) = []
  /\ ~ roundtrip_at "disabled" [""] popup0.
Proof.
  split; [apply NoDup_singleton|]. split; [by repeat constructor|].
  assert (eidDisabledSet (save_then_load "disabled" [""] popup0) = []) as Hload
    by (rewrite save_then_load_eq; reflexivity).
  split; [exact Hload|].
  unfold roundtrip_at. rewrite Hload. intros Heq.
  apply (not_elem_of_empty (C := gset string) "").
  change (∅ : gset string) with (list_to_set [] : gset string). rewrite Heq.
  apply elem_of_list_to_set. by left.
Qed.

(** Bulk disable when only the hosting extension and a theme are enabled
    and themes are excluded. *)
Lemma oneKeyDisable_nothing_enabled_witness :
  (forall item, In item [extB; extSelf; extTheme] ->
                ExtensionInfo.id item <> "self" ->
                ExtensionInfo.type item ∉ excludeType popup_no_theme ->
                ExtensionInfo.enabled item = false)
  /\ oneKeyDisable_callback "self" [extB; extSelf; extTheme] popup_no_theme
     = (popup_no_theme, [])
  /\ callbacks (oneKeyDisable_callback "self" [extB; extSelf; extTheme] popup_no_theme).2
     = [].
Proof.
  assert (forall item, In item [extB; extSelf; extTheme] ->
                       ExtensionInfo.id item <> "self" ->
                       ExtensionInfo.type item ∉ excludeType popup_no_theme ->
                       ExtensionInfo.enabled item = false) as Hnone.
  { intros item [<-|[<-|[<-|[]]]] Hself Hex.
    - reflexivity.
    - destruct Hself. reflexivity.
    - contradict Hex. change ("theme" ∈ ({["theme"]} : gset string)).
      by apply elem_of_singleton. }
  split; [exact Hnone|].
  exact (oneKeyDisable_nothing_enabled "self" popup_no_theme [extB; extSelf; extTheme] Hnone).
Defined.

(** Two rendered items with the focus on the last one: Tab goes to the
    header and ArrowUp to the first item. *)
Lemma focus_moves_circularly_witness :
  let st := popup_focused "self" (fun key => key) lengthCompare [extA; extB] 1 in
  NoDup (clickableElements st)
  /\ clickableElements st !! 2%nat = Some (activeElement st)
  /\ activeElement (keydown "Tab" false st) = H1
  /\ Some (LI 0) = Some (activeElement (keydown "ArrowUp" false st)).
Proof.
  intros st.
  assert (NoDup (clickableElements st)) as Hnd
    by (apply (bool_decide_unpack _); vm_compute; exact I).
  assert (clickableElements st !! 2%nat = Some (activeElement st)) as Hi
    by (vm_compute; reflexivity).
  destruct (focus_moves_circularly st 2 Hnd Hi) as (_ & _ & _ & Hup & Hlast & _).
  split; [exact Hnd|]. split; [exact Hi|]. split.
  - apply Hlast. vm_compute. reflexivity.
  - exact (Hup false).
Defined.

(** ** Witnesses of the further properties *)

(** A fresh popup has nothing stored. *)
Lemma readFromLocal_nothing_stored_witness :
  (localStorage popup0 !! "disabled" = None \/ localStorage popup0 !! "disabled" = Some "")
  /\ readFromLocal "disabled" popup0 = popup0.
Proof.
  assert (localStorage popup0 !! "disabled" = None
          \/ localStorage popup0 !! "disabled" = Some "") as Hnone
    by (left; reflexivity).
  split; [exact Hnone|].
  exact (readFromLocal_nothing_stored "disabled" popup0 Hnone).
Defined.

(** Saving and loading a set of two identifiers in place. *)
Lemma writeToLocal_readFromLocal_witness :
  let st := set_eidDisabledSet ["aaaa"; "bbbb"] popup0 in
  Forall (fun id => comma_free id = true) (eidDisabledSet st)
  /\ readFromLocal "disabled" (writeToLocal "disabled" st) = writeToLocal "disabled" st.
Proof.
  intros st.
  assert (Forall (fun id => comma_free id = true) (eidDisabledSet st)) as Hfree
    by (repeat constructor).
  split; [exact Hfree|].
  exact (writeToLocal_readFromLocal "disabled" st Hfree).
Defined.

(** Loading and saving a stored string of two identifiers. *)
Lemma readFromLocal_writeToLocal_witness :
  let st := constructor ∅ {["disabled" := "aaaa,bbbb"]} in
  eidDisabledSet st = []
  /\ localStorage st !! "disabled" = Some "aaaa,bbbb"
  /\ NoDup (String_split comma "aaaa,bbbb")
  /\ localStorage (writeToLocal "disabled" (readFromLocal "disabled" st)) = localStorage st.
Proof.
  intros st.
  assert (localStorage st !! "disabled" = Some "aaaa,bbbb") as Hdata by reflexivity.
  assert (NoDup (String_split comma "aaaa,bbbb")) as Hnd
    by (apply (bool_decide_unpack _); vm_compute; exact I).
  split; [reflexivity|]. split; [exact Hdata|]. split; [exact Hnd|].
  exact (readFromLocal_writeToLocal "disabled" st "aaaa,bbbb" eq_refl Hdata Hnd).
Defined.

(** The platform reports [extA] disabled after it was rendered enabled. *)
Lemma toggleExtensionState_rendered_witness :
  let st' := renderExtensions_callback "self" (fun key => key) lengthCompare
               [extA; extB] popup0 in
  NoDup (map ExtensionInfo.id [extA; extB])
  /\ List.filter (fun item => negb (hidden "self" popup0 item))
       (sortByASCII lengthCompare popup0 [extA; extB]) !! 0%nat = Some extA
  /\ ExtensionInfo.id extA_off = ExtensionInfo.id extA
  /\ exists li,
       ul_children st' !! 0%nat = Some li
       /\ ul_children (toggleExtensionState (fun key => key) extA_off st')
          = <[0%nat := renderExtensionState (fun key => key) st' li extA_off]> (ul_children st')
       /\ ul_children (toggleExtensionState (fun key => key) extA_off st') !! 0%nat
          = Some (renderExtensionState (fun key => key) st' li extA_off)
       /\ li_dataset_enabled (renderExtensionState (fun key => key) st' li extA_off)
          = ExtensionInfo.enabled extA_off.
Proof.
  intros st'.
  assert (NoDup (map ExtensionInfo.id [extA; extB])) as Hnd
    by (apply (bool_decide_unpack _); vm_compute; exact I).
  assert (List.filter (fun item => negb (hidden "self" popup0 item))
            (sortByASCII lengthCompare popup0 [extA; extB]) !! 0%nat = Some extA) as Hk
    by (vm_compute; reflexivity).
  split; [exact Hnd|]. split; [exact Hk|]. split; [reflexivity|].
  exact (toggleExtensionState_rendered "self" (fun key => key) lengthCompare
           [extA; extB] popup0 0 extA extA_off Hnd Hk eq_refl).
Defined.

(** A click on the first rendered item. *)
Lemma click_rendered_item_witness :
  let st' := renderExtensions_callback "self" (fun key => key) lengthCompare
               [extA; extB] popup0 in
  List.filter (fun item => negb (hidden "self" popup0 item))
    (sortByASCII lengthCompare popup0 [extA; extB]) !! 0%nat = Some extA
  /\ exists li,
       ul_children st' !! 0%nat = Some li
       /\ handle (fun key => key) (Click (LI (li_node li))) st'
          = (st', [management_get "aaaa"]).
Proof.
  intros st'.
  assert (List.filter (fun item => negb (hidden "self" popup0 item))
            (sortByASCII lengthCompare popup0 [extA; extB]) !! 0%nat = Some extA) as Hk
    by (vm_compute; reflexivity).
  split; [exact Hk|].
  exact (proj1 (click_rendered_item "self" (fun key => key) lengthCompare
                  [extA; extB] popup0 0 extA Hk)).
Defined.

(** Right after a rendering the focus is on the body. *)
Lemma focus_from_outside_witness :
  let st := renderExtensions_callback "self" (fun key => key) lengthCompare
              [extA; extB] popup0 in
  attached st = true
  /\ (activeElement st ∉ clickableElements st)
  /\ activeElement (keydown "Tab" false st) = H1
  /\ Some (activeElement (keydown "Tab" true st)) = Some (LI 1).
Proof.
  intros st.
  assert (activeElement st ∉ clickableElements st) as Hout
    by (apply (bool_decide_unpack _); vm_compute; exact I).
  destruct (focus_from_outside st eq_refl Hout) as (Hfwd & _ & Hbwd & _).
  split; [reflexivity|]. split; [exact Hout|]. split; [exact Hfwd | exact Hbwd].
Defined.

(** A bulk disable of [extA] and [extTheme]: the completion for [extA]
    alone persists nothing. *)
Lemma oneKeyDisable_persists_at_the_end_witness :
  oneKeyDisable_filtered "self" popup0 [extA; extB; extTheme] = [extA] ++ [extTheme]
  /\ NoDup (map ExtensionInfo.id (oneKeyDisable_filtered "self" popup0 [extA; extB; extTheme]))
  /\ localStorage
       (fire (fun key => key) "disabled"
          (take (length [extA])
             (callbacks (oneKeyDisable_callback "self" [extA; extB; extTheme] popup0).2))
          popup0)
     = localStorage popup0.
Proof.
  assert (NoDup (map ExtensionInfo.id
                   (oneKeyDisable_filtered "self" popup0 [extA; extB; extTheme]))) as Hnd
    by (apply (bool_decide_unpack _); vm_compute; exact I).
  split; [reflexivity|]. split; [exact Hnd|].
  destruct (oneKeyDisable_persists_at_the_end "self" (fun key => key) "disabled"
              popup0 popup0 [extA; extB; extTheme] [extA] extTheme eq_refl Hnd)
    as (_ & _ & Hstorage & _).
  exact Hstorage.
Defined.

(** The same bulk disable with the completion for [extTheme] first. *)
Lemma oneKeyDisable_last_completes_first_witness :
  oneKeyDisable_filtered "self" popup0 [extA; extB; extTheme] = [extA] ++ [extTheme]
  /\ NoDup (map ExtensionInfo.id (oneKeyDisable_filtered "self" popup0 [extA; extB; extTheme]))
  /\ localStorage
       (fire (fun key => key) "disabled"
          [DisableDone "tttt" (Some "tttt"); DisableDone "aaaa" (Some "tttt")] popup0)
     !! "disabled" = Some "tttt".
Proof.
  assert (NoDup (map ExtensionInfo.id
                   (oneKeyDisable_filtered "self" popup0 [extA; extB; extTheme]))) as Hnd
    by (apply (bool_decide_unpack _); vm_compute; exact I).
  split; [reflexivity|]. split; [exact Hnd|].
  destruct (oneKeyDisable_last_completes_first "self" (fun key => key) "disabled"
              popup0 popup0 [extA; extB; extTheme] [extA] extTheme eq_refl Hnd)
    as (_ & Hstorage & _).
  exact Hstorage.
Defined.

(** Bulk disable of [extA] and [extTheme], then bulk restore once the
    platform reports both disabled. *)
Lemma oneKeyDisable_then_oneKeyRestore_witness :
  eidDisabledSet popup0 = []
  /\ NoDup (map ExtensionInfo.id (oneKeyDisable_filtered "self" popup0 [extA; extB; extTheme]))
  /\ (forall item,
        In item (oneKeyDisable_filtered "self" popup0 [extA; extB; extTheme]) ->
        exists item', In item' [extA_off; extB; extTheme_off]
                      /\ ExtensionInfo.id item' = ExtensionInfo.id item
                      /\ ExtensionInfo.enabled item' = false
                      /\ (ExtensionInfo.type item' ∉ excludeType popup0))
  /\ (oneKeyRestore_callback "self" (fun key => key) "disabled" [extA_off; extB; extTheme_off]
        (fire (fun key => key) "disabled"
           (callbacks (oneKeyDisable_callback "self" [extA; extB; extTheme] popup0).2)
           popup0)).2
     = [management_setEnabled "aaaa" true None; management_setEnabled "tttt" true None].
Proof.
  assert (NoDup (map ExtensionInfo.id
                   (oneKeyDisable_filtered "self" popup0 [extA; extB; extTheme]))) as Hnd
    by (apply (bool_decide_unpack _); vm_compute; exact I).
  assert (forall item,
             In item (oneKeyDisable_filtered "self" popup0 [extA; extB; extTheme]) ->
             exists item', In item' [extA_off; extB; extTheme_off]
                           /\ ExtensionInfo.id item' = ExtensionInfo.id item
                           /\ ExtensionInfo.enabled item' = false
                           /\ (ExtensionInfo.type item' ∉ excludeType popup0)) as Hplatform.
  { intros item Hin. vm_compute in Hin. destruct Hin as [<-|[<-|[]]].
    - exists extA_off. split; [by left|]. split; [reflexivity|]. split; [reflexivity|].
      apply not_elem_of_empty.
    - exists extTheme_off. split; [right; right; by left|].
      split; [reflexivity|]. split; [reflexivity|]. apply not_elem_of_empty. }
  split; [reflexivity|]. split; [exact Hnd|]. split; [exact Hplatform|].
  exact (proj2 (oneKeyDisable_then_oneKeyRestore "self" (fun key => key) "disabled"
                  popup0 [extA; extB; extTheme] [extA_off; extB; extTheme_off]
                  eq_refl Hnd Hplatform)).
Defined.

(** C10 as stated fails on a record whose full name is empty: with the short
    name absent, or empty, the label and the alternative text are the empty
    string. *)
Lemma renderExtensionState_empty_label :
  let rendered := renderExtensionState (fun key => key) popup0 (createLi 0) extNameless in
  let rendered' :=
    renderExtensionState (fun key => key) popup0 (createLi 0)
      (ExtensionInfo.mk "nnnn" "" (Some "") true "extension" None) in
  ExtensionInfo.shortName extNameless = None
  /\ span_textContent rendered = ""
  /\ img_alt rendered = ""
  /\ span_textContent rendered' = ""
  /\ img_alt rendered' = "".
Proof. repeat split. Qed.

(** A bulk disable among an enabled extension, a disabled one, the hosting
    extension and a theme: two requests, and once both completions fired the
    storage holds the two identifiers with a comma between them. *)
Lemma oneKeyDisable_requests_witness :
  let issued := oneKeyDisable_callback "self" [extA; extB; extSelf; extTheme] popup0 in
  let s' := fire (fun key => key) "disabled" (callbacks issued.2) popup0 in
  issued.2
  = [management_setEnabled "aaaa" false (Some (DisableDone "aaaa" (Some "tttt")));
     management_setEnabled "tttt" false (Some (DisableDone "tttt" (Some "tttt")))]
  /\ eidDisabledSet s' = ["aaaa"; "tttt"]
  /\ localStorage s' !! "disabled" = Some "aaaa,tttt"
  /\ h1_textContent s' = "one_key_restore".
Proof.
  intros issued s'.
  destruct (oneKeyDisable_requests "self" (fun key => key) "disabled" popup0
              [extA; extB; extSelf; extTheme])
    as (_ & _ & _ & Hissued & _ & _ & Hfire).
  assert (oneKeyDisable_filtered "self" popup0 [extA; extB; extSelf; extTheme] <> [])
    as Hne by discriminate.
  destruct (Hfire popup0 Hne) as (_ & Hset & Hstored & _ & Hheader).
  split; [exact Hissued|]. split; [exact Hset|]. split; [exact Hstored | exact Hheader].
Defined.
